(** * Shiptivity API: the priority reassignment of [PUT /api/v1/clients/:id]

    A shallow embedding of [src/server.js]: the two validators and the
    PUT handler, run against a table of client rows.  The handler is
    written in a small state-and-exception monad over the world it acts
    on (the table, the response sent so far, the update statements run). *)

From stdpp Require Import base strings list sorting.
From Stdlib Require Import ZArith Lia.

Local Open Scope Z_scope.

(** ** Values *)

(** A JavaScript number as the handler meets it: [parseInt] returns
    either [NaN] or an integer, and the rows hold integers.  The
    priority of the body is a number of this kind too; fractions and
    values that are not numbers are not modelled. *)
Inductive number : Type :=
  | NaN
  | Num (z : Z).

Global Instance number_eq_dec : EqDecision number.
Proof. solve_decision. Defined.

Global Instance Num_inj : Inj (=) (=) Num.
Proof. by intros x y [= ->]. Qed.

Definition Number_isNaN (n : number) : bool :=
  match n with NaN => true | Num _ => false end.

(** One row of table [clients].  The handler names the columns [id],
    [status] and [priority]; [columns] holds every other column of the
    row ([select *] returns them, no statement of the handler sets them).
    The integers are the stored ones; the handler reads them as
    JavaScript numbers, which are the same integers when the stored ones
    are safe ([safe_rows] below). *)
Record client_row : Type := Client {
  id : Z;
  status : string;
  priority : Z;
  columns : list (string * string)
}.

Global Instance client_row_eq_dec : EqDecision client_row.
Proof. solve_decision. Defined.

Definition set_priority (p : Z) (c : client_row) : client_row :=
  {| id := id c; status := status c; priority := p; columns := columns c |}.

Definition set_status_priority (s : string) (p : Z) (c : client_row) : client_row :=
  {| id := id c; status := s; priority := p; columns := columns c |}.

(** ** The world of the handler *)

Record message_obj : Type := MessageObj {
  message : string;
  long_message : string
}.

(** What [validateId] and [validatePriority] return:
    [{valid: false, messageObj: ...}] or [{valid: true}]. *)
Record validation : Type := Validation {
  valid : bool;
  messageObj : option message_obj
}.

Inductive body : Type :=
  | Message (m : option message_obj)
  | Rows (cs : list client_row).

Record response : Type := Response {
  code : Z;
  payload : body
}.

(** The two update statements the handler prepares, with their bound
    parameters in the order of [run]. *)
Inductive statement : Type :=
  | UpdatePriority (p : Z) (i : number)
      (* update clients set priority = ? where id = ? *)
  | UpdateStatusPriority (s : string) (p : Z) (i : number).
      (* update clients set status = ?, priority = ? where id = ? *)

Inductive js_error : Type :=
  | TypeError
  | ERR_HTTP_HEADERS_SENT.

Record world : Type := World {
  db : list client_row;
  sent : list response;
  ran : list statement
}.

Inductive completion (A : Type) : Type :=
  | Normal (a : A)
  | Throw (e : js_error).
Global Arguments Normal {A} a.
Global Arguments Throw {A} e.

Definition M (A : Type) : Type := world → completion A * world.

Definition ret {A} (a : A) : M A := λ w, (Normal a, w).

Definition bind {A B} (m : M A) (k : A → M B) : M B :=
  λ w, match m w with
       | (Normal a, w') => k a w'
       | (Throw e, w') => (Throw e, w')
       end.

Definition throw {A} (e : js_error) : M A := λ w, (Throw e, w).

Global Instance M_ret : MRet M := @ret.
Global Instance M_bind : MBind M := λ A B k m, bind m k.

(** ** The table *)

(** [update clients set ... where id = ?] *)
Definition update_where (i : number) (f : client_row → client_row)
    (rows : list client_row) : list client_row :=
  (λ c, if decide (Num (id c) = i) then f c else c) <$> rows.

Definition exec (st : statement) (rows : list client_row) : list client_row :=
  match st with
  | UpdatePriority p i => update_where i (set_priority p) rows
  | UpdateStatusPriority s p i => update_where i (set_status_priority s p) rows
  end.

(** [clients.find(client => client.id === id)] *)
Definition find_client (i : number) (clients : list client_row)
    : option client_row :=
  List.find (λ c, bool_decide (Num (id c) = i)) clients.

(** [db.prepare('select * from clients').all()] *)
Definition select_all : M (list client_row) := λ w, (Normal (db w), w).

(** [db.prepare('select * from clients where id = ? limit 1').get(id)] *)
Definition select_one (i : number) : M (option client_row) :=
  λ w, (Normal (find_client i (db w)), w).

(** [db.prepare(update).run(...)] *)
Definition run (st : statement) : M unit :=
  λ w, (Normal tt,
        {| db := exec st (db w); sent := sent w; ran := ran w ++ [st] |}).

(** [res.status(code).send(body)]: a response goes out once; sending
    again on the same [res] throws. *)
Definition res_send (c : Z) (b : body) : M unit :=
  λ w, match sent w with
       | [] => (Normal tt,
                {| db := db w; sent := [Response c b]; ran := ran w |})
       | _ :: _ => (Throw ERR_HTTP_HEADERS_SENT, w)
       end.

(** Reading a property of [client], which is [undefined] when
    [clients.find] found no row. *)
Definition prop {A} (client : option client_row) (field : client_row → A) : M A :=
  match client with
  | Some c => ret (field c)
  | None => throw TypeError
  end.

(** [list.forEach((c, idx) => ...)] *)
Fixpoint forEach_from {A} (idx : nat) (l : list A)
    (f : A → nat → M unit) : M unit :=
  match l with
  | [] => ret tt
  | c :: l' => f c idx ;; forEach_from (S idx) l' f
  end.

Definition forEach {A} (l : list A) (f : A → nat → M unit) : M unit :=
  forEach_from 0 l f.

(** [list.sort(cmp)]: a stable sort; an element goes before the first
    one that the comparator does not put before it. *)
Fixpoint sort_insert (cmp : client_row → client_row → Z) (x : client_row)
    (l : list client_row) : list client_row :=
  match l with
  | [] => [x]
  | y :: l' =>
      if decide (cmp x y ≤ 0) then x :: y :: l'
      else y :: sort_insert cmp x l'
  end.

Definition sort (cmp : client_row → client_row → Z) (l : list client_row) : list client_row :=
  foldr (sort_insert cmp) [] l.

(** [(a, b) => a.priority - b.priority]; [sort] uses its sign, which on
    safe integers is the sign the subtraction of the two numbers has. *)
Definition by_priority (a b : client_row) : Z := priority a - priority b.

(** ** The validators *)

Definition validateId (i : number) : M validation :=
  if Number_isNaN i then
    ret {| valid := false;
           messageObj := Some {| message := "Invalid id provided.";
                                 long_message := "Id can only be integer." |} |}
  else
    client ← select_one i;
    match client with
    | None =>
        ret {| valid := false;
               messageObj :=
                 Some {| message := "Invalid id provided.";
                         long_message := "Cannot find client with that id." |} |}
    | Some _ => ret {| valid := true; messageObj := None |}
    end.

Definition validatePriority (p : number) : validation :=
  if Number_isNaN p then
    {| valid := false;
       messageObj :=
         Some {| message := "Invalid priority provided.";
                 long_message := "Priority can only be positive integer." |} |}
  else {| valid := true; messageObj := None |}.

(** ** The PUT handler *)

(** The rank written to the member at index [idx] of the sorted target
    swimlane: [let p = idx + 1; if (p >= newPriority) p++]. *)
Definition shifted_rank (newPriority : Z) (idx : nat) : Z :=
  let p := Z.of_nat idx + 1 in
  if decide (p >= newPriority) then p + 1 else p.

(** Lines 155-162: remove the client from the old swimlane and renumber
    the members it leaves behind. *)
Definition compact_source (i : number) (clients : list client_row)
    (client : option client_row) (statusChanged : bool) : M unit :=
  if statusChanged then
    cstatus ← prop client status;
    let oldClients :=
      filter (λ c, status c = cstatus ∧ Num (id c) ≠ i) clients in
    let oldClients := sort by_priority oldClients in
    forEach oldClients (λ c idx,
      run (UpdatePriority (Z.of_nat idx + 1) (Num (id c))))
  else mret tt.

(** Lines 164-173: renumber the target swimlane around [newPriority],
    then write the client itself. *)
Definition insert_target (i : number) (newStatus : string)
    (targetClients : list client_row) (newPriority : Z) : M unit :=
  let targetClients := sort by_priority targetClients in
  forEach targetClients (λ c idx,
    run (UpdatePriority (shifted_rank newPriority idx) (Num (id c)))) ;;
  run (UpdateStatusPriority newStatus newPriority i).

(** Lines 155-177, once [newPriority] is known. *)
Definition reorder (i : number) (clients : list client_row)
    (client : option client_row) (newStatus : string) (statusChanged : bool)
    (targetClients : list client_row) (newPriority : Z) : M unit :=
  compact_source i clients client statusChanged ;;
  insert_target i newStatus targetClients newPriority ;;
  clients ← select_all;
  res_send 200 (Rows clients).

(** [app.put('/api/v1/clients/:id', ...)], with [i] the result of
    [parseInt(req.params.id, 10)] and [status_], [priority_] the two
    properties of [req.body] ([None] when [undefined]). *)
Definition put_client (i : number) (status_ : option string)
    (priority_ : option number) : M unit :=
  v ← validateId i;
  (if negb (valid v) then res_send 400 (Message (messageObj v))
   else mret tt) ;;
  clients ← select_all;
  let client := find_client i clients in
  match status_, priority_ with
  | None, None => res_send 200 (Rows clients)
  | _, _ =>
      newStatus ← (match status_ with
                   | Some s => mret s
                   | None => prop client status
                   end);
      cstatus ← prop client status;
      let statusChanged := bool_decide (newStatus ≠ cstatus) in
      let targetClients :=
        filter (λ c, status c = newStatus ∧ Num (id c) ≠ i) clients in
      match priority_ with
      | Some p =>
          let v := validatePriority p in
          match valid v, p with
          | true, Num p =>
              reorder i clients client newStatus statusChanged targetClients
                (Z.max 1 (Z.min p (Z.of_nat (length targetClients) + 1)))
          | _, _ => res_send 400 (Message (messageObj v))
          end
      | None =>
          if statusChanged then
            reorder i clients client newStatus statusChanged targetClients
              (Z.of_nat (length targetClients) + 1)
          else
            cpriority ← prop client priority;
            reorder i clients client newStatus statusChanged targetClients
              cpriority
      end
  end.

(** [db.prepare('select * from clients where status = ?').all(status)] *)
Definition select_status (s : string) : M (list client_row) :=
  λ w, (Normal (filter (λ c, status c = s) (db w)), w).

(** [app.get('/api/v1/clients', ...)], with [status_] the property
    [req.query.status]; the empty string is falsy. *)
Definition get_clients (status_ : option string) : M unit :=
  match status_ with
  | Some s =>
      if bool_decide (s ≠ "") then
        if bool_decide (s ≠ "backlog" ∧ s ≠ "in-progress" ∧ s ≠ "complete")
        then
          res_send 400 (Message (Some
            {| message := "Invalid status provided.";
               long_message := "Status can only be one of the following: [backlog | in-progress | complete]." |}))
        else
          clients ← select_status s;
          res_send 200 (Rows clients)
      else
        clients ← select_all;
        res_send 200 (Rows clients)
  | None =>
      clients ← select_all;
      res_send 200 (Rows clients)
  end.

(** The world a request meets: the table, nothing sent, nothing run. *)
Definition request_on (rows : list client_row) : world :=
  {| db := rows; sent := []; ran := [] |}.

Definition handle (rows : list client_row) (i : number)
    (status_ : option string) (priority_ : option number)
    : completion unit * world :=
  put_client i status_ priority_ (request_on rows).

(** ** The id of the path *)

(** [Number.isSafeInteger]: an integer that a JavaScript number holds
    exactly.  The rows are read back as JavaScript numbers, so the
    integers of the model are the numbers the handler computes with as
    long as the stored ones are safe. *)
Definition safe_integer (z : Z) : Prop := - (2 ^ 53 - 1) ≤ z ≤ 2 ^ 53 - 1.

Definition safe_rows (rows : list client_row) : Prop :=
  Forall (λ r, safe_integer (id r) ∧ safe_integer (priority r)) rows.

(** The integer a JavaScript number takes for [z]: the nearest one with
    a significand of 53 bits, ties to the even one. *)
Definition to_double (z : Z) : Z :=
  let a := Z.abs z in
  if decide (a < 2 ^ 53) then z
  else
    let e := Z.log2 a - 52 in
    let q := a / 2 ^ e in
    let r := a mod 2 ^ e in
    let half := 2 ^ (e - 1) in
    let q' := if decide (r < half) then q
              else if decide (half < r) then q + 1
              else if Z.even q then q else q + 1 in
    Z.sgn z * q' * 2 ^ e.

(** White space and line terminators, among the code units below 256. *)
Definition is_white_space (a : Ascii.ascii) : bool :=
  bool_decide (Ascii.nat_of_ascii a ∈ [9; 10; 11; 12; 13; 32; 160]%nat).

Fixpoint trim_start (s : string) : string :=
  match s with
  | String a r => if is_white_space a then trim_start r else s
  | EmptyString => s
  end.

Definition digit_value (a : Ascii.ascii) : option Z :=
  let n := Z.of_nat (Ascii.nat_of_ascii a) in
  if decide (48 ≤ n ≤ 57) then Some (n - 48) else None.

(** The decimal digits [s] starts with. *)
Fixpoint leading_digits (s : string) : list Z :=
  match s with
  | String a r =>
      match digit_value a with
      | Some d => d :: leading_digits r
      | None => []
      end
  | EmptyString => []
  end.

Definition digits_value (ds : list Z) : Z :=
  foldl (λ acc d, 10 * acc + d) 0 ds.

(** [parseInt(s, 10)], for a string [s] of code units below 256: skip
    the leading white space, take a sign, read the digits up to the
    first character that is not one; [NaN] when there is no digit.  A
    value past the largest double stands for [Infinity]: like it, it is
    the id of no row. *)
Definition parseInt (s : string) : number :=
  let s := trim_start s in
  let '(sign, s) :=
    match s with
    | String a r =>
        if decide (Ascii.nat_of_ascii a = 45%nat) then (-1, r)   (* - *)
        else if decide (Ascii.nat_of_ascii a = 43%nat) then (1, r) (* + *)
        else (1, s)
    | EmptyString => (1, s)
    end in
  match leading_digits s with
  | [] => NaN
  | ds => Num (to_double (sign * digits_value ds))
  end.

(** The PUT handler from the path: line 118 takes the id out of
    [req.params.id]. *)
Definition handle_path (rows : list client_row) (id_ : string)
    (status_ : option string) (priority_ : option number)
    : completion unit * world :=
  handle rows (parseInt id_) status_ priority_.

(** ** What a run of the handler amounts to *)

(** The statements a [forEach] over [cs] runs, from index [idx] on. *)
Fixpoint writes_from (rank : nat → Z) (idx : nat) (cs : list client_row)
    : list statement :=
  match cs with
  | [] => []
  | c :: cs' => UpdatePriority (rank idx) (Num (id c)) :: writes_from rank (S idx) cs'
  end.

Definition exec_all (sts : list statement) (rows : list client_row)
    : list client_row :=
  foldl (λ rows st, exec st rows) rows sts.

Definition run_all (sts : list statement) (w : world) : world :=
  {| db := exec_all sts (db w); sent := sent w; ran := ran w ++ sts |}.

Definition old_swimlane (i : number) (cstatus : string)
    (clients : list client_row) : list client_row :=
  filter (λ c, status c = cstatus ∧ Num (id c) ≠ i) clients.

Definition target_swimlane (i : number) (newStatus : string)
    (clients : list client_row) : list client_row :=
  filter (λ c, status c = newStatus ∧ Num (id c) ≠ i) clients.

Definition compaction (i : number) (cstatus : string)
    (clients : list client_row) : list statement :=
  writes_from (λ idx, Z.of_nat idx + 1) 0
    (sort by_priority (old_swimlane i cstatus clients)).

Definition insertion (i : number) (newStatus : string)
    (targetClients : list client_row) (newPriority : Z) : list statement :=
  writes_from (shifted_rank newPriority) 0 (sort by_priority targetClients)
  ++ [UpdateStatusPriority newStatus newPriority i].

(** The effective status and priority of a request on client [c]. *)
Definition effective_status (c : client_row) (status_ : option string)
    : string :=
  default (status c) status_.

Definition effective_priority (c : client_row) (newStatus : string)
    (len : nat) (priority_ : option Z) : Z :=
  match priority_ with
  | Some p => Z.max 1 (Z.min p (Z.of_nat len + 1))
  | None =>
      if bool_decide (newStatus ≠ status c) then Z.of_nat len + 1
      else priority c
  end.

(** All the assignments of one request, in the order they are run. *)
Definition assignments (i : number) (c : client_row) (newStatus : string)
    (newPriority : Z) (clients : list client_row) : list statement :=
  (if bool_decide (newStatus ≠ status c)
   then compaction i (status c) clients else [])
  ++ insertion i newStatus (target_swimlane i newStatus clients) newPriority.

Definition provided (status_ : option string) (priority_ : option Z) : bool :=
  match status_, priority_ with
  | None, None => false
  | _, _ => true
  end.

(** ** Swimlanes and their invariant *)

Definition swimlane (s : string) (rows : list client_row) : list client_row :=
  filter (λ c, status c = s) rows.

(** The priorities of the members are exactly 1, ..., n. *)
Definition dense (cs : list client_row) : Prop :=
  priority <$> cs ≡ₚ seqZ 1 (Z.of_nat (length cs)).

Definition invariant (rows : list client_row) : Prop :=
  ∀ s, dense (swimlane s rows).

(** [id] is the key of the table. *)
Definition unique_ids (rows : list client_row) : Prop :=
  NoDup (id <$> rows).

(** ** The table after the updates *)

(** The index of the first row of [cs] whose key is [i]. *)
Fixpoint index_of (i : Z) (cs : list client_row) : option nat :=
  match cs with
  | [] => None
  | c :: cs' => if decide (id c = i) then Some 0%nat else S <$> index_of i cs'
  end.

Definition renumber (rank : nat → Z) (cs : list client_row) (r : client_row)
    : client_row :=
  match index_of (id r) cs with
  | Some j => set_priority (rank j) r
  | None => r
  end.

(** What one request does to row [r] of the table: the client itself
    takes the new status and priority, a member of the target swimlane
    takes its shifted rank, a member of the swimlane the client left
    takes its rank among those left behind, any other row stays. *)
Definition moved (t : Z) (c : client_row) (newStatus : string)
    (newPriority : Z) (rows : list client_row) (r : client_row) : client_row :=
  if decide (id r = t) then set_status_priority newStatus newPriority r
  else if decide (status r = newStatus) then
    renumber (shifted_rank newPriority)
      (sort by_priority (target_swimlane (Num t) newStatus rows)) r
  else if decide (status r = status c) then
    renumber (λ idx, Z.of_nat idx + 1)
      (sort by_priority (old_swimlane (Num t) (status c) rows)) r
  else r.

(** ** Refusals *)

(** The three values of [status], line 76 and the comment of line 113. *)
Definition statuses : list string := ["backlog"; "in-progress"; "complete"].

Definition positive_integer (p : number) : Prop :=
  match p with
  | Num z => 0 < z
  | NaN => False
  end.

Definition invalid_id (i : number) : message_obj :=
  {| message := "Invalid id provided.";
     long_message := if Number_isNaN i then "Id can only be integer."
                     else "Cannot find client with that id." |}.

Definition invalid_priority : message_obj :=
  {| message := "Invalid priority provided.";
     long_message := "Priority can only be positive integer." |}.

(** The request was refused with [m]: the only response is the 400 that
    carries [m], no statement ran, the table is as it was. *)
Definition rejected (m : message_obj) (rows : list client_row)
    (r : completion unit * world) : Prop :=
  sent r.2 = [Response 400 (Message (Some m))]
  ∧ ran r.2 = []
  ∧ db r.2 = rows.

(** ** The insertion as the specification words it *)

(** Shift every member of the destination swimlane whose priority is at
    least [effectivePriority] up by one. *)
Definition shift_members (i : number) (newStatus : string)
    (effectivePriority : Z) (rows : list client_row) : list client_row :=
  (λ r, if decide (status r = newStatus ∧ Num (id r) ≠ i
                   ∧ priority r >= effectivePriority)
        then set_priority (priority r + 1) r else r) <$> rows.

(** Place the target at [effectivePriority], in the destination swimlane. *)
Definition place_target (i : number) (newStatus : string)
    (effectivePriority : Z) (rows : list client_row) : list client_row :=
  (λ r, if decide (Num (id r) = i)
        then set_status_priority newStatus effectivePriority r else r)
  <$> rows.

(** ** The board of the scenarios *)

(** backlog = [A:1, B:2, C:3], in-progress = [D:1]. *)
Definition client_A : client_row := Client 1 "backlog" 1 [("name", "A")].
Definition client_B : client_row := Client 2 "backlog" 2 [("name", "B")].
Definition client_C : client_row := Client 3 "backlog" 3 [("name", "C")].
Definition client_D : client_row := Client 4 "in-progress" 1 [("name", "D")].
Definition board : list client_row := [client_A; client_B; client_C; client_D].

(** ** Reading a run *)

(** The id a statement is bound to, the last parameter of [run]. *)
Definition statement_id (st : statement) : number :=
  match st with
  | UpdatePriority _ i => i
  | UpdateStatusPriority _ _ i => i
  end.

(** Some row of the table has the id [i]. *)
Definition known_id (i : number) (rows : list client_row) : Prop :=
  ∃ c, c ∈ rows ∧ Num (id c) = i.

(** The priority stored under the id of [r]. *)
Definition priority_in (rows : list client_row) (r : client_row) : option Z :=
  priority <$> find_client (Num (id r)) rows.

(** The four ways a request on the table [rows] can go. *)
Inductive run_of (rows : list client_row) (i : number)
    (status_ : option string) (priority_ : option number)
    : completion unit * world → Prop :=
  | run_unknown e :
      find_client i rows = None →
      run_of rows i status_ priority_
        (Throw e,
         {| db := rows;
            sent := [Response 400 (Message (Some (invalid_id i)))];
            ran := [] |})
  | run_NaN c :
      find_client i rows = Some c →
      priority_ = Some NaN →
      run_of rows i status_ priority_
        (Normal tt,
         {| db := rows;
            sent := [Response 400 (Message (Some invalid_priority))];
            ran := [] |})
  | run_noop c :
      find_client i rows = Some c →
      status_ = None → priority_ = None →
      run_of rows i status_ priority_
        (Normal tt,
         {| db := rows; sent := [Response 200 (Rows rows)]; ran := [] |})
  | run_moved c p sts :
      find_client i rows = Some c →
      priority_ = Num <$> p →
      provided status_ p = true →
      sts = assignments i c (effective_status c status_)
              (effective_priority c (effective_status c status_)
                 (length (target_swimlane i (effective_status c status_) rows))
                 p)
              rows →
      run_of rows i status_ priority_
        (Normal tt,
         {| db := exec_all sts rows;
            sent := [Response 200 (Rows (exec_all sts rows))];
            ran := sts |}).

(** ** The table after a request, in closed form *)

(** The priority of [r] once the client [c] is taken out of the
    swimlane they share: the members after the client move up by one. *)
Definition without_client (c r : client_row) : Z :=
  if decide (priority c < priority r) then priority r - 1 else priority r.

(** The priority [q] once a slot is opened at [k]. *)
Definition with_slot (k q : Z) : Z :=
  if decide (q >= k) then q + 1 else q.

(** Row [r] after the request that puts client [c] at priority [k] of
    swimlane [newStatus], computed from the priorities alone. *)
Definition closed_move (c : client_row) (newStatus : string) (k : Z)
    (r : client_row) : client_row :=
  if decide (id r = id c) then set_status_priority newStatus k r
  else if decide (status r = newStatus) then
    set_priority
      (with_slot k (if decide (newStatus = status c) then without_client c r
                    else priority r)) r
  else if decide (status r = status c) then
    set_priority (without_client c r) r
  else r.

(** ** Refusal of a listing *)

Definition invalid_status : message_obj :=
  {| message := "Invalid status provided.";
     long_message := "Status can only be one of the following: [backlog | in-progress | complete]." |}.

(** * Proofs *)

(** ** Runs of the blocks of the handler *)

Lemma run_all_nil w : run_all [] w = w.
Proof. destruct w. unfold run_all. simpl. by rewrite app_nil_r. Qed.

Lemma run_all_cons st sts w :
  run_all (st :: sts) w = run_all sts (run_all [st] w).
Proof. unfold run_all. simpl. by rewrite <- app_assoc. Qed.

Lemma run_all_app sts1 sts2 w :
  run_all (sts1 ++ sts2) w = run_all sts2 (run_all sts1 w).
Proof.
  unfold run_all, exec_all. simpl. by rewrite foldl_app, app_assoc.
Qed.

Lemma forEach_from_run (rank : nat → Z) cs : ∀ idx w,
  forEach_from idx cs (λ c j, run (UpdatePriority (rank j) (Num (id c)))) w
  = (Normal tt, run_all (writes_from rank idx cs) w).
Proof.
  induction cs as [|c cs IH]; intros idx w; simpl.
  - by rewrite run_all_nil.
  - unfold mbind, M_bind, bind. simpl.
    rewrite IH. by rewrite (run_all_cons _ (writes_from _ _ _)).
Qed.

Lemma compact_source_run i clients c (statusChanged : bool) w :
  compact_source i clients (Some c) statusChanged w
  = (Normal tt,
     run_all (if statusChanged then compaction i (status c) clients else []) w).
Proof.
  unfold compact_source. destruct statusChanged.
  - unfold prop, mbind, M_bind, bind, mret, M_ret, ret, forEach. simpl.
    apply (forEach_from_run (λ idx, Z.of_nat idx + 1)).
  - by rewrite run_all_nil.
Qed.

Lemma insert_target_run i newStatus targetClients newPriority w :
  insert_target i newStatus targetClients newPriority w
  = (Normal tt, run_all (insertion i newStatus targetClients newPriority) w).
Proof.
  unfold insert_target, insertion, forEach, mbind, M_bind, bind.
  rewrite forEach_from_run. by rewrite run_all_app.
Qed.

Lemma reorder_run i clients c newStatus targetClients newPriority w :
  sent w = [] →
  reorder i clients (Some c) newStatus (bool_decide (newStatus ≠ status c))
    targetClients newPriority w
  = let w' := run_all
        ((if bool_decide (newStatus ≠ status c)
          then compaction i (status c) clients else [])
         ++ insertion i newStatus targetClients newPriority) w in
    (Normal tt,
     {| db := db w'; sent := [Response 200 (Rows (db w'))]; ran := ran w' |}).
Proof.
  intros Hsent. unfold reorder, mbind, M_bind, bind.
  rewrite compact_source_run, insert_target_run.
  rewrite run_all_app. unfold select_all, res_send. simpl. by rewrite Hsent.
Qed.

(** A request for a client that is in the table, with a status or a
    priority (a number that is not [NaN]) in its body, runs to the end. *)
Lemma handle_found rows t c status_ (priority_ : option Z) :
  find_client (Num t) rows = Some c →
  provided status_ priority_ = true →
  handle rows (Num t) status_ (Num <$> priority_)
  = let newStatus := effective_status c status_ in
    let newPriority :=
      effective_priority c newStatus
        (length (target_swimlane (Num t) newStatus rows)) priority_ in
    let rows' :=
      exec_all (assignments (Num t) c newStatus newPriority rows) rows in
    (Normal tt,
     {| db := rows';
        sent := [Response 200 (Rows rows')];
        ran := assignments (Num t) c newStatus newPriority rows |}).
Proof.
  intros Hfind Hprov.
  unfold handle, put_client, validateId, select_one, select_all.
  unfold mbind, M_bind, bind, mret, M_ret, ret, prop, request_on. simpl.
  rewrite Hfind. simpl. fold (request_on rows).
  assert (Hre : ∀ newStatus newPriority,
    reorder (Num t) rows (Some c) newStatus
      (bool_decide (newStatus ≠ status c))
      (target_swimlane (Num t) newStatus rows) newPriority (request_on rows)
    = (Normal tt,
       {| db := exec_all (assignments (Num t) c newStatus newPriority rows) rows;
          sent := [Response 200 (Rows
            (exec_all (assignments (Num t) c newStatus newPriority rows) rows))];
          ran := assignments (Num t) c newStatus newPriority rows |})).
  { intros. by rewrite reorder_run. }
  destruct status_ as [s|], priority_ as [p|]; simpl in *; try done;
    rewrite ?Hfind; simpl.
  - apply Hre.
  - unfold effective_priority. case_bool_decide as Hs.
    + specialize (Hre s (Z.of_nat (length (target_swimlane (Num t) s rows)) + 1)).
      by rewrite (bool_decide_eq_true_2 _ Hs) in Hre.
    + specialize (Hre s (priority c)).
      by rewrite bool_decide_eq_false_2 in Hre by naive_solver.
  - apply Hre.
Qed.

(** ** Sorting *)

Lemma sort_insert_perm cmp x l : sort_insert cmp x l ≡ₚ x :: l.
Proof.
  induction l as [|y l IH]; simpl; [done|].
  case_decide; [done|]. rewrite IH. apply Permutation_swap.
Qed.

Lemma sort_perm cmp l : sort cmp l ≡ₚ l.
Proof.
  induction l as [|x l IH]; simpl; [done|].
  by rewrite sort_insert_perm, IH.
Qed.

Lemma sort_insert_hd a x l :
  a ≤ priority x →
  HdRel Z.le a (priority <$> l) →
  HdRel Z.le a (priority <$> sort_insert by_priority x l).
Proof.
  destruct l as [|y l]; simpl; intros Ha Hhd.
  - by constructor.
  - case_decide; simpl; constructor; [done|]. by inversion Hhd.
Qed.

Lemma sort_insert_sorted x l :
  Sorted Z.le (priority <$> l) →
  Sorted Z.le (priority <$> sort_insert by_priority x l).
Proof.
  induction l as [|y l IH]; simpl; intros Hs.
  - repeat constructor.
  - apply Sorted_inv in Hs as [Hs Hhd]. unfold by_priority at 1.
    case_decide as Hle; simpl.
    + constructor; [by constructor|]. constructor. lia.
    + constructor; [by apply IH|]. apply sort_insert_hd; [lia|done].
Qed.

Lemma sort_sorted l : Sorted Z.le (priority <$> sort by_priority l).
Proof.
  induction l as [|x l IH]; simpl; [constructor|].
  by apply sort_insert_sorted.
Qed.

Lemma sort_length cmp l : length (sort cmp l) = length l.
Proof. apply Permutation_length, sort_perm. Qed.

Lemma sort_elem_of cmp l x : x ∈ sort cmp l ↔ x ∈ l.
Proof. by rewrite sort_perm. Qed.

(** ** Rows and their keys *)

Lemma unique_ids_NoDup rows : unique_ids rows → NoDup rows.
Proof. apply NoDup_fmap_1. Qed.

Lemma unique_ids_inj rows x y :
  unique_ids rows → x ∈ rows → y ∈ rows → id x = id y → x = y.
Proof.
  unfold unique_ids. induction rows as [|r rows IH]; simpl.
  - by intros _ ?%elem_of_nil.
  - rewrite NoDup_cons, !elem_of_cons. intros [Hr Hnd] [->|Hx] [->|Hy] Heq.
    + done.
    + destruct Hr. rewrite Heq. by apply list_elem_of_fmap_2.
    + destruct Hr. rewrite <- Heq. by apply list_elem_of_fmap_2.
    + by apply IH.
Qed.

Lemma unique_ids_perm rows rows' :
  rows ≡ₚ rows' → unique_ids rows → unique_ids rows'.
Proof. unfold unique_ids. by intros ->. Qed.

Lemma unique_ids_filter (P : client_row → Prop) `{∀ x, Decision (P x)} rows :
  unique_ids rows → unique_ids (filter P rows).
Proof.
  unfold unique_ids. induction rows as [|r rows IH]; simpl; [done|].
  rewrite NoDup_cons. intros [Hr Hnd]. rewrite filter_cons.
  case_decide; simpl; [|by apply IH].
  apply NoDup_cons. split; [|by apply IH].
  intros (y & Hy & Hin%list_elem_of_filter)%list_elem_of_fmap.
  apply Hr. rewrite Hy. apply list_elem_of_fmap_2. tauto.
Qed.

Lemma unique_ids_sorted_lane (P : client_row → Prop) `{∀ x, Decision (P x)}
    rows :
  unique_ids rows → unique_ids (sort by_priority (filter P rows)).
Proof.
  intros Hu. eapply unique_ids_perm; [symmetry; apply sort_perm|].
  by apply unique_ids_filter.
Qed.

Lemma find_client_Some t rows c :
  find_client (Num t) rows = Some c → c ∈ rows ∧ id c = t.
Proof.
  unfold find_client. intros [Hin Hb]%find_some. split.
  - by apply list_elem_of_In.
  - apply bool_decide_eq_true_1 in Hb. by injection Hb.
Qed.

Lemma find_client_fmap i (f : client_row → client_row) rows :
  (∀ r, id (f r) = id r) →
  find_client i (f <$> rows) = f <$> find_client i rows.
Proof.
  intros Hf. unfold find_client.
  induction rows as [|r rows IH]; simpl; [done|].
  rewrite (Hf r). by case_bool_decide.
Qed.

(** ** What a [forEach] of updates does to the table *)

Lemma index_of_None i cs : i ∉ id <$> cs → index_of i cs = None.
Proof.
  induction cs as [|c cs IH]; simpl; [done|].
  rewrite not_elem_of_cons. intros [Hne Hnin].
  rewrite decide_False by done. by rewrite IH.
Qed.

Lemma index_of_lookup cs : ∀ j r,
  unique_ids cs → cs !! j = Some r → index_of (id r) cs = Some j.
Proof.
  unfold unique_ids. induction cs as [|c cs IH]; intros j r; simpl; [done|].
  rewrite NoDup_cons. intros [Hc Hnd]. destruct j as [|j]; simpl.
  - intros [= ->]. by rewrite decide_True.
  - intros Hl. rewrite decide_False.
    + by rewrite (IH j r).
    + intros Heq. apply Hc. rewrite Heq.
      apply list_elem_of_fmap_2. by eapply list_elem_of_lookup_2.
Qed.

Lemma renumber_id rank cs r : id (renumber rank cs r) = id r.
Proof. unfold renumber. by destruct (index_of _ _). Qed.

Lemma renumber_status rank cs r : status (renumber rank cs r) = status r.
Proof. unfold renumber. by destruct (index_of _ _). Qed.

Lemma renumber_columns rank cs r : columns (renumber rank cs r) = columns r.
Proof. unfold renumber. by destruct (index_of _ _). Qed.

Lemma renumber_absent rank cs r : id r ∉ id <$> cs → renumber rank cs r = r.
Proof. intros Hr. unfold renumber. by rewrite index_of_None. Qed.

Lemma renumber_lookup rank cs j r :
  unique_ids cs → cs !! j = Some r →
  renumber rank cs r = set_priority (rank j) r.
Proof. intros Hu Hl. unfold renumber. by rewrite (index_of_lookup cs j). Qed.

Lemma exec_all_app sts1 sts2 rows :
  exec_all (sts1 ++ sts2) rows = exec_all sts2 (exec_all sts1 rows).
Proof. unfold exec_all. by rewrite foldl_app. Qed.

Lemma exec_all_writes rank cs : ∀ idx rows,
  unique_ids cs →
  exec_all (writes_from rank idx cs) rows
  = renumber (λ j, rank (idx + j)%nat) cs <$> rows.
Proof.
  unfold unique_ids.
  induction cs as [|c cs IH]; intros idx rows; simpl.
  - intros _. unfold exec_all. simpl.
    rewrite <- (list_fmap_id rows) at 1. by apply list_fmap_ext.
  - rewrite NoDup_cons. intros [Hc Hnd].
    change (exec_all (?st :: ?sts) ?l) with (exec_all sts (exec st l)).
    rewrite IH by done. simpl. unfold update_where.
    rewrite <- list_fmap_compose. apply list_fmap_ext. intros _ r _. simpl.
    case_decide as Hid.
    + apply (inj Num) in Hid.
      rewrite renumber_absent by (simpl; by rewrite Hid).
      unfold renumber. simpl. rewrite decide_True by done.
      by rewrite Nat.add_0_r.
    + unfold renumber. simpl. rewrite decide_False by congruence.
      destruct (index_of (id r) cs); simpl; [|done].
      by rewrite Nat.add_succ_r.
Qed.

(** ** The table after a request *)

Lemma lane_absent rows i s r :
  unique_ids rows → r ∈ rows →
  ¬ (status r = s ∧ Num (id r) ≠ i) →
  id r ∉ id <$> sort by_priority
                  (filter (λ c, status c = s ∧ Num (id c) ≠ i) rows).
Proof.
  intros Hu Hr Hnot (y & Hy & Hin)%list_elem_of_fmap.
  apply sort_elem_of, list_elem_of_filter in Hin as [HP Hin].
  assert (r = y) as -> by by eapply unique_ids_inj.
  by apply Hnot.
Qed.

Lemma exec_all_assignments rows t c newStatus newPriority :
  unique_ids rows → c ∈ rows → id c = t →
  exec_all (assignments (Num t) c newStatus newPriority rows) rows
  = moved t c newStatus newPriority rows <$> rows.
Proof.
  intros Hu Hc Ht. unfold assignments, insertion, compaction.
  rewrite !exec_all_app.
  rewrite (exec_all_writes (shifted_rank newPriority))
    by by apply unique_ids_sorted_lane.
  change (exec_all [?st] ?l) with (exec st l). simpl. unfold update_where.
  case_bool_decide as Hch.
  - rewrite exec_all_writes by by apply unique_ids_sorted_lane.
    rewrite <- !list_fmap_compose. apply list_fmap_ext.
    intros _ r Hr%list_elem_of_lookup_2. simpl. unfold moved.
    rewrite renumber_id, renumber_id.
    destruct (decide (id r = t)) as [Hid|Hid].
    + rewrite decide_True by by rewrite Hid.
      rewrite (renumber_absent _ _ r)
        by (apply lane_absent; [done..|]; intros [_ []]; by rewrite Hid).
      rewrite (renumber_absent _ _ r)
        by (apply lane_absent; [done..|]; intros [_ []]; by rewrite Hid).
      done.
    + rewrite decide_False by (intros ?%(inj Num); done).
      destruct (decide (status r = newStatus)) as [Hs|Hs].
      * rewrite (renumber_absent (λ j, Z.of_nat (0 + j) + 1) _ r); [done|].
        apply lane_absent; [done..|]. intros [? _]. congruence.
      * rewrite (renumber_absent (λ j, shifted_rank newPriority (0 + j)));
          [|rewrite renumber_id; apply lane_absent; [done..|]; by intros [? _]].
        destruct (decide (status r = status c)) as [Hs'|Hs']; [done|].
        apply renumber_absent, lane_absent; [done..|]. by intros [? _].
  - unfold exec_all at 1. simpl.
    rewrite <- !list_fmap_compose. apply list_fmap_ext.
    intros _ r Hr%list_elem_of_lookup_2. simpl. unfold moved.
    rewrite renumber_id.
    destruct (decide (id r = t)) as [Hid|Hid].
    + rewrite decide_True by by rewrite Hid.
      rewrite (renumber_absent _ _ r)
        by (apply lane_absent; [done..|]; intros [_ []]; by rewrite Hid).
      done.
    + rewrite decide_False by (intros ?%(inj Num); done).
      destruct (decide (status r = newStatus)) as [Hs|Hs]; [done|].
      rewrite decide_False by congruence.
      apply renumber_absent, lane_absent; [done..|]. by intros [? _].
Qed.

(** ** Ranks *)

Lemma filter_fmap {A B} (f : A → B) (P : B → Prop) `{∀ x, Decision (P x)}
    (l : list A) :
  filter P (f <$> l) = f <$> filter (λ x, P (f x)) l.
Proof.
  induction l as [|x l IH]; [done|].
  rewrite fmap_cons, !filter_cons, IH. simpl. by case_decide.
Qed.

Lemma filter_ext_in {A} (P Q : A → Prop)
    `{∀ x, Decision (P x)} `{∀ x, Decision (Q x)} (l : list A) :
  (∀ x, x ∈ l → P x ↔ Q x) → filter P l = filter Q l.
Proof.
  induction l as [|x l IH]; intros Hext; [done|].
  rewrite !filter_cons.
  rewrite IH by (intros y Hy; apply Hext; by right).
  assert (P x ↔ Q x) as HPQ by (apply Hext; by left).
  destruct (decide (P x)), (decide (Q x)); tauto.
Qed.

Lemma fmap_ext_in {A B} (f g : A → B) (l : list A) :
  (∀ x, x ∈ l → f x = g x) → f <$> l = g <$> l.
Proof.
  intros Hext. apply list_fmap_ext. intros j x Hj. apply Hext.
  by eapply list_elem_of_lookup_2.
Qed.

Lemma ranks_seqZ n :
  (λ idx : nat, Z.of_nat idx + 1) <$> seq 0 n = seqZ 1 (Z.of_nat n).
Proof. unfold seqZ. by rewrite Nat2Z.id. Qed.

Lemma shifted_ranks_below k n :
  Z.of_nat n < k → shifted_rank k <$> seq 0 n = seqZ 1 (Z.of_nat n).
Proof.
  intros Hk. rewrite <- ranks_seqZ. apply fmap_ext_in.
  intros j [_ Hj]%elem_of_seq. unfold shifted_rank. simpl.
  rewrite decide_False by lia. done.
Qed.

(** The shifted ranks leave out exactly [k]. *)
Lemma shifted_ranks_perm k n :
  1 ≤ k ≤ Z.of_nat n + 1 →
  k :: (shifted_rank k <$> seq 0 n) ≡ₚ seqZ 1 (Z.of_nat (S n)).
Proof.
  induction n as [|n IH]; intros Hk.
  - simpl. assert (k = 1) as -> by lia. done.
  - rewrite seqZ_S. destruct (decide (k ≤ Z.of_nat n + 1)) as [Hle|Hgt].
    + rewrite seq_S, fmap_app. simpl.
      rewrite app_comm_cons, (IH ltac:(lia)).
      unfold shifted_rank at 1. rewrite decide_True by lia.
      replace (Z.of_nat n + 1 + 1) with (1 + Z.of_nat (S n)) by lia. done.
    + rewrite shifted_ranks_below by lia.
      rewrite Permutation_cons_append.
      replace k with (1 + Z.of_nat (S n)) by lia. done.
Qed.

Lemma shifted_ranks_sorted k n :
  Sorted Z.le (shifted_rank k <$> seq 0 n).
Proof.
  apply Sorted_LocallySorted_iff.
  induction n as [|n IH]; [constructor|].
  rewrite seq_S, fmap_app. simpl.
  destruct n as [|n]; [constructor|].
  rewrite seq_S, fmap_app in *. simpl in *.
  rewrite <- app_assoc. simpl.
  assert (∀ (l : list Z) a b, LocallySorted Z.le (l ++ [a]) → a ≤ b →
            LocallySorted Z.le (l ++ [a; b])) as Hsn.
  { clear. induction l as [|x l IHl]; simpl; intros a b Hl Hab.
    - by repeat constructor.
    - destruct l as [|y l]; simpl in *.
      + inversion Hl; subst. by repeat constructor.
      + inversion Hl; subst. constructor; [|done]. by apply IHl. }
  apply Hsn; [done|]. unfold shifted_rank.
  repeat case_decide; lia.
Qed.

Lemma seqZ_sorted n : Sorted Z.le (seqZ 1 (Z.of_nat n)).
Proof.
  rewrite <- (shifted_ranks_below (Z.of_nat n + 1)) by lia.
  apply shifted_ranks_sorted.
Qed.

(** Along the list that defines the ranks, the new priorities are the
    ranks in order. *)
Lemma renumber_self rank cs :
  unique_ids cs →
  priority ∘ renumber rank cs <$> cs = rank <$> seq 0 (length cs).
Proof.
  intros Hu. apply list_eq. intros j. rewrite !list_lookup_fmap.
  destruct (cs !! j) as [r|] eqn:Hj; simpl.
  - rewrite (renumber_lookup rank cs j r) by done. simpl.
    rewrite lookup_seq_lt by by eapply lookup_lt_Some. done.
  - rewrite lookup_seq_ge by by apply lookup_ge_None. done.
Qed.

(** Over the members in any order, the new priorities are the ranks. *)
Lemma renumber_sorted_perm rank cs :
  unique_ids cs →
  priority ∘ renumber rank (sort by_priority cs) <$> cs
  ≡ₚ rank <$> seq 0 (length cs).
Proof.
  intros Hu. rewrite <- (sort_length by_priority cs).
  rewrite <- renumber_self
    by (eapply unique_ids_perm; [symmetry; apply sort_perm|done]).
  apply fmap_Permutation. symmetry. apply sort_perm.
Qed.

(** ** The rows of a moved table, by case *)

Section moved.
Context (rows : list client_row) (t : Z) (c : client_row).
Context (newStatus : string) (newPriority : Z).
Hypothesis Hunique : unique_ids rows.
Hypothesis Hc : c ∈ rows.
Hypothesis Ht : id c = t.

Local Abbreviation moved_row := (moved t c newStatus newPriority rows).
Local Abbreviation targetClients := (target_swimlane (Num t) newStatus rows).
Local Abbreviation oldClients := (old_swimlane (Num t) (status c) rows).

Lemma moved_id r : id (moved_row r) = id r.
Proof. unfold moved. repeat case_decide; by rewrite ?renumber_id. Qed.

Lemma moved_columns r : columns (moved_row r) = columns r.
Proof. unfold moved. repeat case_decide; by rewrite ?renumber_columns. Qed.

Lemma moved_status r :
  status (moved_row r) = if decide (id r = t) then newStatus else status r.
Proof. unfold moved. repeat case_decide; by rewrite ?renumber_status. Qed.

Lemma moved_client : moved_row c = set_status_priority newStatus newPriority c.
Proof. unfold moved. by rewrite decide_True. Qed.

Lemma row_is_client r : r ∈ rows → id r = t → r = c.
Proof. intros Hr Hid. eapply unique_ids_inj; [done..|]. by rewrite Ht. Qed.

Lemma target_elem_of r :
  r ∈ targetClients ↔ r ∈ rows ∧ status r = newStatus ∧ id r ≠ t.
Proof.
  unfold target_swimlane. rewrite list_elem_of_filter.
  split; [intros [[? Hne] ?]|intros (? & ? & ?)]; repeat split; try done.
  - intros Heq. apply Hne. by rewrite Heq.
  - by intros ?%(inj Num).
Qed.

Lemma old_elem_of r :
  r ∈ oldClients ↔ r ∈ rows ∧ status r = status c ∧ id r ≠ t.
Proof.
  unfold old_swimlane. rewrite list_elem_of_filter.
  split; [intros [[? Hne] ?]|intros (? & ? & ?)]; repeat split; try done.
  - intros Heq. apply Hne. by rewrite Heq.
  - by intros ?%(inj Num).
Qed.

Lemma moved_target r :
  r ∈ targetClients →
  moved_row r
  = renumber (shifted_rank newPriority) (sort by_priority targetClients) r.
Proof.
  intros (_ & Hs & Hid)%target_elem_of. unfold moved.
  by rewrite decide_False, decide_True.
Qed.

Lemma moved_old r :
  newStatus ≠ status c → r ∈ oldClients →
  moved_row r
  = renumber (λ idx, Z.of_nat idx + 1) (sort by_priority oldClients) r.
Proof.
  intros Hch (_ & Hs & Hid)%old_elem_of. unfold moved.
  rewrite decide_False by done. rewrite decide_False by congruence.
  by rewrite decide_True.
Qed.

Lemma moved_other r :
  r ∈ rows → status r ≠ newStatus → status r ≠ status c → moved_row r = r.
Proof.
  intros Hr Hs Hs'. unfold moved.
  rewrite decide_False by (intros Hid; by rewrite (row_is_client r) in Hs').
  by rewrite !decide_False.
Qed.

(** The target swimlane after the request: the client and the members. *)
Lemma target_lane_after :
  filter (λ r, status (moved_row r) = newStatus) rows
  ≡ₚ c :: targetClients.
Proof.
  apply NoDup_Permutation.
  - by apply NoDup_filter, unique_ids_NoDup.
  - apply NoDup_cons. split.
    + rewrite target_elem_of. by intros (_ & _ & ?).
    + by apply NoDup_filter, unique_ids_NoDup.
  - intros r. rewrite list_elem_of_filter, elem_of_cons, target_elem_of.
    simpl. rewrite moved_status. case_decide as Hid.
    + split; [intros [_ Hr]; left; by apply row_is_client|].
      intros [->|(? & ? & ?)]; done.
    + split; [intros [? ?]; by right|].
      intros [->|(? & ? & ?)]; done.
Qed.

(** The swimlane the client left, after the request. *)
Lemma old_lane_after :
  newStatus ≠ status c →
  filter (λ r, status (moved_row r) = status c) rows = oldClients.
Proof.
  intros Hch. unfold old_swimlane. apply list_filter_iff. intros r. simpl.
  rewrite moved_status. case_decide as Hid.
  - split; [done|]. intros [_ []]. by rewrite Hid.
  - split; [intros ?; split; [done|]; by intros ?%(inj Num)|]. by intros [? _].
Qed.

Lemma other_lane_after s :
  s ≠ newStatus → s ≠ status c →
  swimlane s (moved_row <$> rows) = swimlane s rows.
Proof.
  intros Hs Hs'. unfold swimlane. rewrite filter_fmap.
  rewrite (filter_ext_in _ (λ r, status r = s)).
  - rewrite <- (list_fmap_id (filter _ rows)) at 2. apply fmap_ext_in.
    intros r [Hr Hin]%list_elem_of_filter. simpl in Hr.
    unfold Datatypes.id. apply moved_other; [done|congruence..].
  - intros r Hr. simpl. rewrite moved_status. case_decide as Hid; [|done].
    rewrite (row_is_client r) by done. split; congruence.
Qed.

Lemma target_lane_dense :
  1 ≤ newPriority ≤ Z.of_nat (length targetClients) + 1 →
  dense (swimlane newStatus (moved_row <$> rows)).
Proof.
  intros Hk. unfold dense, swimlane.
  rewrite filter_fmap, length_fmap, <- list_fmap_compose.
  rewrite target_lane_after. simpl. rewrite moved_client. simpl.
  rewrite (fmap_ext_in _
    (priority ∘ renumber (shifted_rank newPriority)
       (sort by_priority targetClients)))
    by (intros r Hr; simpl; by rewrite moved_target).
  rewrite renumber_sorted_perm by by apply unique_ids_filter.
  by apply shifted_ranks_perm.
Qed.

Lemma old_lane_dense :
  newStatus ≠ status c →
  dense (swimlane (status c) (moved_row <$> rows)).
Proof.
  intros Hch. unfold dense, swimlane.
  rewrite filter_fmap, length_fmap, <- list_fmap_compose.
  rewrite old_lane_after by done.
  rewrite (fmap_ext_in _
    (priority ∘ renumber (λ idx, Z.of_nat idx + 1)
       (sort by_priority oldClients)))
    by (intros r Hr; simpl; by rewrite moved_old).
  rewrite renumber_sorted_perm by by apply unique_ids_filter.
  by rewrite ranks_seqZ.
Qed.

(** The swimlane of the client before the request. *)
Lemma client_lane_before :
  swimlane (status c) rows
  ≡ₚ c :: target_swimlane (Num t) (status c) rows.
Proof.
  apply NoDup_Permutation.
  - by apply NoDup_filter, unique_ids_NoDup.
  - apply NoDup_cons. split.
    + unfold target_swimlane. rewrite list_elem_of_filter.
      intros [[_ Hne] _]. by rewrite Ht in Hne.
    + by apply NoDup_filter, unique_ids_NoDup.
  - intros r. unfold swimlane, target_swimlane.
    rewrite elem_of_cons, !list_elem_of_filter. split.
    + intros [Hs Hr]. destruct (decide (id r = t)) as [Hid|Hid].
      * left. by apply row_is_client.
      * right. repeat split; try done. by intros ?%(inj Num).
    + intros [->|[[? ?] ?]]; done.
Qed.

Lemma client_priority_bounds :
  dense (swimlane (status c) rows) →
  1 ≤ priority c
    ≤ Z.of_nat (length (target_swimlane (Num t) (status c) rows)) + 1.
Proof.
  unfold dense. rewrite client_lane_before. simpl. intros Hd.
  assert (priority c ∈ seqZ 1 (Z.of_nat (S
    (length (target_swimlane (Num t) (status c) rows))))) as Hin
    by (rewrite <- Hd; by left).
  apply elem_of_seqZ in Hin. lia.
Qed.
End moved.

(** ** Requests that change nothing *)

Lemma set_priority_same r : set_priority (priority r) r = r.
Proof. by destruct r. Qed.

Lemma set_status_priority_same r :
  set_status_priority (status r) (priority r) r = r.
Proof. by destruct r. Qed.

(** Writing to every member the priority it has leaves the members alone. *)
Lemma renumber_same rank cs r :
  unique_ids cs →
  priority <$> cs = rank <$> seq 0 (length cs) →
  r ∈ cs → renumber rank cs r = r.
Proof.
  intros Hu Hp [j Hj]%list_elem_of_lookup_1.
  rewrite (renumber_lookup rank cs j r) by done.
  assert ((priority <$> cs) !! j = Some (priority r)) as Hpj
    by by rewrite list_lookup_fmap, Hj.
  rewrite Hp, list_lookup_fmap in Hpj.
  rewrite lookup_seq_lt in Hpj by by eapply lookup_lt_Some.
  simpl in Hpj. injection Hpj as ->. apply set_priority_same.
Qed.

Lemma writes_from_priorities rank cs : ∀ idx,
  priority <$> cs = rank <$> seq idx (length cs) →
  writes_from rank idx cs
  = (λ r, UpdatePriority (priority r) (Num (id r))) <$> cs.
Proof.
  induction cs as [|c cs IH]; intros idx; simpl; [done|].
  intros [= Hc Hcs]. rewrite (IH (S idx)) by done. by rewrite Hc.
Qed.

(** The sorted members of a dense swimlane carry 1, 2, 3, ... *)
Lemma sorted_dense_priorities cs :
  dense cs →
  priority <$> sort by_priority cs = seqZ 1 (Z.of_nat (length cs)).
Proof.
  intros Hd. apply (Sorted_unique Z.le).
  - apply sort_sorted.
  - apply seqZ_sorted.
  - by rewrite sort_perm.
Qed.

(** The sorted members of a dense swimlane that lacks the client carry
    the ranks around the priority of the client. *)
Lemma sorted_gap_priorities rows c :
  unique_ids rows → c ∈ rows → dense (swimlane (status c) rows) →
  priority <$> sort by_priority (target_swimlane (Num (id c)) (status c) rows)
  = shifted_rank (priority c)
      <$> seq 0 (length (target_swimlane (Num (id c)) (status c) rows)).
Proof.
  intros Hu Hc Hd. apply (Sorted_unique Z.le).
  - apply sort_sorted.
  - apply shifted_ranks_sorted.
  - rewrite sort_perm. apply (Permutation_cons_inv (a := priority c)).
    rewrite shifted_ranks_perm
      by by apply (client_priority_bounds rows (id c) c).
    unfold dense in Hd.
    rewrite (client_lane_before rows (id c) c) in Hd by done. done.
Qed.

Lemma moved_fixpoint rows c :
  unique_ids rows → c ∈ rows → dense (swimlane (status c) rows) →
  moved (id c) c (status c) (priority c) rows <$> rows = rows.
Proof.
  intros Hu Hc Hd.
  transitivity (Datatypes.id <$> rows); [|apply list_fmap_id].
  apply fmap_ext_in. intros r Hr. unfold Datatypes.id, moved.
  destruct (decide (id r = id c)) as [Hid|Hid].
  - rewrite (row_is_client rows (id c) c Hu Hc eq_refl r Hr Hid).
    apply set_status_priority_same.
  - destruct (decide (status r = status c)) as [Hs|Hs]; [|done].
    apply renumber_same.
    + by apply unique_ids_sorted_lane.
    + rewrite sort_length. by apply sorted_gap_priorities.
    + apply sort_elem_of, (target_elem_of rows (id c)). done.
Qed.

(** ** Runs of the handler that stop early *)

Lemma find_client_NaN rows : find_client NaN rows = None.
Proof.
  unfold find_client. by induction rows as [|r rows IH].
Qed.

(** No row for the id: the 400 goes out, the handler runs on without a
    [return], and ends by throwing before it runs a statement. *)
Lemma handle_unknown rows i status_ priority_ :
  find_client i rows = None →
  handle rows i status_ priority_
  = (Throw (match status_, priority_ with
            | None, None => ERR_HTTP_HEADERS_SENT
            | _, _ => TypeError
            end),
     {| db := rows;
        sent := [Response 400 (Message (Some (invalid_id i)))];
        ran := [] |}).
Proof.
  intros Hfind.
  unfold handle, put_client, validateId, select_one, select_all, invalid_id.
  unfold mbind, M_bind, bind, mret, M_ret, ret, prop, request_on.
  destruct i as [|t]; simpl.
  - rewrite !find_client_NaN. by destruct status_, priority_.
  - rewrite !Hfind. simpl. rewrite !Hfind. by destruct status_, priority_.
Qed.

Lemma handle_noop rows t c :
  find_client (Num t) rows = Some c →
  handle rows (Num t) None None
  = (Normal tt,
     {| db := rows; sent := [Response 200 (Rows rows)]; ran := [] |}).
Proof.
  intros Hfind.
  unfold handle, put_client, validateId, select_one, select_all.
  unfold mbind, M_bind, bind, mret, M_ret, ret, prop, request_on. simpl.
  by rewrite Hfind.
Qed.

Lemma handle_NaN_priority rows t c status_ :
  find_client (Num t) rows = Some c →
  handle rows (Num t) status_ (Some NaN)
  = (Normal tt,
     {| db := rows;
        sent := [Response 400 (Message (Some invalid_priority))];
        ran := [] |}).
Proof.
  intros Hfind.
  unfold handle, put_client, validateId, select_one, select_all.
  unfold mbind, M_bind, bind, mret, M_ret, ret, prop, request_on. simpl.
  rewrite Hfind. simpl. destruct status_; simpl; by rewrite ?Hfind.
Qed.

(** The table after a request that runs to the end. *)
Lemma handle_db rows t c status_ (priority_ : option Z) :
  unique_ids rows →
  find_client (Num t) rows = Some c →
  provided status_ priority_ = true →
  db (handle rows (Num t) status_ (Num <$> priority_)).2
  = moved t c (effective_status c status_)
      (effective_priority c (effective_status c status_)
         (length (target_swimlane (Num t) (effective_status c status_) rows))
         priority_)
      rows <$> rows.
Proof.
  intros Hu Hfind Hprov. rewrite (handle_found rows t c) by done. simpl.
  apply find_client_Some in Hfind as [Hc Ht].
  by apply exec_all_assignments.
Qed.

Lemma effective_priority_bounds rows t c status_ priority_ :
  unique_ids rows → c ∈ rows → id c = t →
  dense (swimlane (status c) rows) →
  1 ≤ effective_priority c (effective_status c status_)
        (length (target_swimlane (Num t) (effective_status c status_) rows))
        priority_
    ≤ Z.of_nat
        (length (target_swimlane (Num t) (effective_status c status_) rows))
      + 1.
Proof.
  intros Hu Hc Ht Hd. unfold effective_priority.
  destruct priority_ as [p|]; [lia|].
  case_bool_decide as Hch; [lia|].
  rewrite Hch. by apply client_priority_bounds.
Qed.

(** ** Properties of the PUT handler *)

Lemma board_unique_ids : unique_ids board.
Proof. unfold unique_ids. apply (bool_decide_unpack _). by vm_compute. Qed.

Lemma board_invariant : invariant board.
Proof.
  intros s. unfold dense, swimlane, board.
  rewrite !filter_cons, filter_nil. simpl.
  repeat case_decide; simplify_eq; done.
Qed.

Lemma board_safe_rows : safe_rows board.
Proof. repeat constructor; unfold safe_integer; simpl; lia. Qed.

(** C1: from a table with unique ids whose every swimlane carries the
    priorities 1..n, a request for a client of the table (any status,
    any integer priority, either of them possibly absent) leaves a
    table whose every swimlane, the two touched ones included, carries
    1..n again. *)
Theorem put_preserves_invariant rows t c status_ (priority_ : option Z) :
  unique_ids rows →
  invariant rows →
  find_client (Num t) rows = Some c →
  invariant (db (handle rows (Num t) status_ (Num <$> priority_)).2).
Proof.
  intros Hu Hinv Hfind. destruct (provided status_ priority_) eqn:Hprov.
  - rewrite (handle_db rows t c) by done.
    apply find_client_Some in Hfind as [Hc Ht]. intros s.
    destruct (decide (s = effective_status c status_)) as [->|Hs].
    { apply target_lane_dense; [done..|].
      by apply effective_priority_bounds. }
    destruct (decide (s = status c)) as [->|Hs'].
    + apply old_lane_dense; [done..|]. congruence.
    + rewrite other_lane_after by done. apply Hinv.
  - destruct status_, priority_; try done. simpl.
    by rewrite (handle_noop rows t c).
Qed.

Lemma put_preserves_invariant_witness :
  invariant (db (handle board (Num 1) (Some "in-progress") (Some (Num 1))).2).
Proof.
  apply (put_preserves_invariant board 1 client_A
           (Some "in-progress") (Some 1)).
  - apply board_unique_ids.
  - apply board_invariant.
  - reflexivity.
Defined.

(** C2: a provided integer priority [p] is clamped into
    [1, len(targetSwimlane) + 1], the target swimlane not counting the
    client: below 1 it becomes 1, above the bound it becomes the bound,
    in range it is kept; the clamped value is the one the assignments
    are computed from and the one the client is stored with. *)
Theorem priority_is_clamped rows t c status_ p :
  unique_ids rows →
  find_client (Num t) rows = Some c →
  let newStatus := effective_status c status_ in
  let len := Z.of_nat (length (target_swimlane (Num t) newStatus rows)) in
  let w := (handle rows (Num t) status_ (Some (Num p))).2 in
  ∃ k, (p < 1 → k = 1) ∧ (len + 1 < p → k = len + 1)
       ∧ (1 ≤ p ≤ len + 1 → k = p)
       ∧ ran w = assignments (Num t) c newStatus k rows
       ∧ find_client (Num t) (db w)
         = Some (set_status_priority newStatus k c).
Proof.
  intros Hu Hfind newStatus len w.
  exists (Z.max 1 (Z.min p (len + 1))).
  split; [lia|]. split; [lia|]. split; [lia|].
  assert (provided status_ (Some p) = true) as Hprov by by destruct status_.
  subst w. change (Some (Num p)) with (Num <$> Some p). split.
  - by rewrite (handle_found rows t c status_ (Some p)).
  - rewrite (handle_db rows t c status_ (Some p)) by done.
    pose proof Hfind as [Hc Ht]%find_client_Some.
    rewrite find_client_fmap by (intros r; by apply moved_id).
    rewrite Hfind. simpl. by rewrite moved_client.
Qed.

Lemma priority_is_clamped_witness :
  ∃ k, (99 < 1 → k = 1) ∧ (2 + 1 < 99 → k = 2 + 1)
       ∧ (1 ≤ 99 ≤ 2 + 1 → k = 99)
       ∧ ran (handle board (Num 3) None (Some (Num 99))).2
         = assignments (Num 3) client_C "backlog" k board
       ∧ find_client (Num 3)
           (db (handle board (Num 3) None (Some (Num 99))).2)
         = Some (set_status_priority "backlog" k client_C).
Proof.
  apply (priority_is_clamped board 3 client_C None 99).
  - apply board_unique_ids.
  - reflexivity.
Defined.

(** Scenario D: priority 99 into a swimlane of two other members
    stores the client with priority 3. *)
Example scenario_D :
  find_client (Num 1)
    (db (handle board (Num 1) None (Some (Num 99))).2)
  = Some (set_priority 3 client_A).
Proof. reflexivity. Qed.

(** C6: on a table with unique ids that satisfies the invariant, a
    request for the status and the priority the client already has
    leaves the table as it was. *)
Theorem current_position_is_fixed rows t c :
  unique_ids rows →
  invariant rows →
  find_client (Num t) rows = Some c →
  db (handle rows (Num t) (Some (status c)) (Some (Num (priority c)))).2
  = rows.
Proof.
  intros Hu Hinv Hfind.
  change (Some (Num (priority c))) with (Num <$> Some (priority c)).
  rewrite (handle_db rows t c (Some (status c)) (Some (priority c))) by done.
  apply find_client_Some in Hfind as [Hc Ht]. subst t. simpl.
  pose proof (client_priority_bounds rows (id c) c Hu Hc eq_refl
                (Hinv (status c))) as Hk.
  rewrite Z.min_l, Z.max_r by lia. by apply moved_fixpoint.
Qed.

Lemma current_position_is_fixed_witness :
  db (handle board (Num 2) (Some "backlog") (Some (Num 2))).2 = board.
Proof.
  apply (current_position_is_fixed board 2 client_B).
  - apply board_unique_ids.
  - apply board_invariant.
  - reflexivity.
Defined.

(** C10: on a table with unique ids that satisfies the invariant, a
    request with the status the client already has and no priority
    does not take the no-op exit: it runs one update per member of the
    swimlane, each writing the priority that member has, then the
    update of the client with its own status and priority; the table
    is left as it was. *)
Theorem same_status_rewrites_ranks rows t c :
  unique_ids rows →
  invariant rows →
  find_client (Num t) rows = Some c →
  let w := (handle rows (Num t) (Some (status c)) None).2 in
  ran w
  = ((λ r, UpdatePriority (priority r) (Num (id r)))
       <$> sort by_priority (target_swimlane (Num t) (status c) rows))
    ++ [UpdateStatusPriority (status c) (priority c) (Num t)]
  ∧ db w = rows.
Proof.
  intros Hu Hinv Hfind w. subst w.
  pose proof Hfind as [Hc Ht]%find_client_Some. subst t.
  change (@None number) with (Num <$> @None Z). split.
  - rewrite (handle_found rows (id c) c (Some (status c)) None) by done.
    simpl. unfold effective_priority, assignments, insertion.
    rewrite bool_decide_eq_false_2 by naive_solver. simpl.
    f_equal. apply writes_from_priorities.
    rewrite sort_length. by apply sorted_gap_priorities.
  - rewrite (handle_db rows (id c) c (Some (status c)) None) by done.
    simpl. unfold effective_priority.
    rewrite bool_decide_eq_false_2 by naive_solver.
    by apply moved_fixpoint.
Qed.

Lemma same_status_rewrites_ranks_witness :
  ran (handle board (Num 2) (Some "backlog") None).2
  = ((λ r, UpdatePriority (priority r) (Num (id r)))
       <$> sort by_priority (target_swimlane (Num 2) "backlog" board))
    ++ [UpdateStatusPriority "backlog" 2 (Num 2)]
  ∧ db (handle board (Num 2) (Some "backlog") None).2 = board.
Proof.
  apply (same_status_rewrites_ranks board 2 client_B).
  - apply board_unique_ids.
  - apply board_invariant.
  - reflexivity.
Defined.

Lemma find_client_elem rows r :
  unique_ids rows → r ∈ rows → find_client (Num (id r)) rows = Some r.
Proof.
  unfold unique_ids, find_client.
  induction rows as [|x rows IH]; simpl; [by intros _ ?%elem_of_nil|].
  rewrite NoDup_cons, elem_of_cons. intros [Hx Hnd] [->|Hr].
  - by rewrite bool_decide_eq_true_2.
  - rewrite bool_decide_eq_false_2; [by apply IH|].
    intros [= Heq]. apply Hx. rewrite Heq. by apply list_elem_of_fmap_2.
Qed.

(** C7: a request that changes the status and gives no priority
    stores the client at the end of the target swimlane, with rank
    len(targetSwimlane) + 1; the members it leaves behind, taken in
    ascending order of the priority they had, are stored with the
    ranks 1, 2, ..., so that the swimlane left is dense again.  On the
    board, moving A to in-progress gives backlog = [B:1, C:2] and
    in-progress = [D:1, A:2]. *)
Theorem status_change_appends rows t c s :
  unique_ids rows →
  find_client (Num t) rows = Some c →
  s ≠ status c →
  let w := (handle rows (Num t) (Some s) None).2 in
  let len := Z.of_nat (length (target_swimlane (Num t) s rows)) in
  let oldClients := sort by_priority (old_swimlane (Num t) (status c) rows) in
  find_client (Num t) (db w) = Some (set_status_priority s (len + 1) c)
  ∧ oldClients ≡ₚ old_swimlane (Num t) (status c) rows
  ∧ Sorted Z.le (priority <$> oldClients)
  ∧ (∀ j r, oldClients !! j = Some r →
       find_client (Num (id r)) (db w)
       = Some (set_priority (Z.of_nat j + 1) r))
  ∧ dense (swimlane (status c) (db w))
  ∧ db (handle board (Num 1) (Some "in-progress") None).2
    = [set_status_priority "in-progress" 2 client_A;
       set_priority 1 client_B; set_priority 2 client_C; client_D].
Proof.
  intros Hu Hfind Hs w len oldClients. subst w.
  change (@None number) with (Num <$> @None Z).
  rewrite (handle_db rows t c (Some s) None) by done.
  pose proof Hfind as [Hc Ht]%find_client_Some. simpl.
  unfold effective_priority. rewrite bool_decide_eq_true_2 by done.
  fold len. split; [|split; [|split; [|split; [|split]]]].
  - rewrite find_client_fmap by (intros r; by apply moved_id).
    rewrite Hfind. simpl. by rewrite moved_client.
  - apply sort_perm.
  - apply sort_sorted.
  - intros j r Hj.
    assert (r ∈ old_swimlane (Num t) (status c) rows) as Hr
      by (eapply sort_elem_of, list_elem_of_lookup_2, Hj).
    pose proof Hr as (Hrows & _ & _)%old_elem_of; [|done..].
    rewrite find_client_fmap by (intros r'; by apply moved_id).
    rewrite find_client_elem by done. simpl.
    rewrite moved_old by done. f_equal.
    apply (renumber_lookup (λ idx, Z.of_nat idx + 1) _ j); [|done].
    by apply unique_ids_sorted_lane.
  - by apply old_lane_dense.
  - reflexivity.
Qed.

Lemma status_change_appends_witness :
  find_client (Num 1) (db (handle board (Num 1) (Some "in-progress") None).2)
  = Some (set_status_priority "in-progress" (Z.of_nat 1 + 1) client_A).
Proof.
  apply (status_change_appends board 1 client_A "in-progress").
  - apply board_unique_ids.
  - reflexivity.
  - discriminate.
Defined.

(** C8: when the members of the target swimlane carry 1..n, the
    insertion of the handler (sort, rank by index, skip the slot) leaves
    the same table as shifting up by one every member whose priority is
    at least the effective priority and then placing the client. *)
Theorem insertion_is_shift rows i newStatus effectivePriority :
  unique_ids rows →
  dense (target_swimlane i newStatus rows) →
  db (insert_target i newStatus (target_swimlane i newStatus rows)
        effectivePriority (request_on rows)).2
  = place_target i newStatus effectivePriority
      (shift_members i newStatus effectivePriority rows).
Proof.
  intros Hu Hd. rewrite insert_target_run. simpl.
  unfold insertion. rewrite exec_all_app.
  rewrite exec_all_writes by by apply unique_ids_sorted_lane.
  change (exec_all [?st] ?l) with (exec st l). simpl.
  unfold place_target, shift_members. f_equal.
  apply fmap_ext_in. intros r Hr. simpl.
  pose proof (sorted_dense_priorities _ Hd) as Hp.
  set (sorted := sort by_priority (target_swimlane i newStatus rows)) in *.
  assert (unique_ids sorted) as Hus by by apply unique_ids_sorted_lane.
  destruct (decide (status r = newStatus ∧ Num (id r) ≠ i)) as [Hin|Hout].
  - assert (r ∈ sorted) as [j Hj]%list_elem_of_lookup_1.
    { apply sort_elem_of, list_elem_of_filter. done. }
    rewrite (renumber_lookup _ sorted j r) by done.
    assert ((priority <$> sorted) !! j = Some (priority r)) as Hpj
      by by rewrite list_lookup_fmap, Hj.
    rewrite Hp in Hpj. apply lookup_seqZ in Hpj as [Hpr _].
    unfold shifted_rank. simpl. rewrite Hpr.
    replace (1 + Z.of_nat j) with (Z.of_nat j + 1) by lia.
    case_decide as Hge.
    + rewrite decide_True by (split_and!; [tauto..|lia]). done.
    + rewrite decide_False by (intros (_ & _ & ?); lia).
      rewrite <- (set_priority_same r) at 2. f_equal. lia.
  - rewrite renumber_absent by by apply lane_absent.
    rewrite decide_False; [done|]. intros (? & ? & _). by apply Hout.
Qed.

Lemma insertion_is_shift_witness :
  db (insert_target (Num 1) "in-progress"
        (target_swimlane (Num 1) "in-progress" board) 1 (request_on board)).2
  = place_target (Num 1) "in-progress" 1
      (shift_members (Num 1) "in-progress" 1 board).
Proof.
  apply (insertion_is_shift board (Num 1) "in-progress" 1).
  - apply board_unique_ids.
  - unfold dense. reflexivity.
Defined.

(** C9: a request that the handler processes to its end creates no row
    and deletes none, leaves the id and the other columns of every row
    as they were, and leaves alone every row that is neither in the
    swimlane of the client nor in the one it moves to. *)
Theorem put_frame rows i status_ priority_ :
  unique_ids rows →
  (handle rows i status_ priority_).1 = Normal tt →
  let rows' := db (handle rows i status_ priority_).2 in
  id <$> rows' = id <$> rows
  ∧ columns <$> rows' = columns <$> rows
  ∧ ∃ c, find_client i rows = Some c
      ∧ ∀ j r, rows !! j = Some r →
          status r ≠ status c → status r ≠ effective_status c status_ →
          rows' !! j = Some r.
Proof.
  intros Hu Hrun rows'. subst rows'.
  destruct (find_client i rows) as [c|] eqn:Hfind;
    [|by rewrite handle_unknown in Hrun].
  assert (i = Num (id c)) as ->.
  { unfold find_client in Hfind. apply find_some in Hfind as [_ Hb].
    by apply bool_decide_eq_true_1 in Hb. }
  assert (∀ rows', rows' = rows →
    id <$> rows' = id <$> rows
    ∧ columns <$> rows' = columns <$> rows
    ∧ ∃ c0, Some c = Some c0
        ∧ ∀ j r, rows !! j = Some r →
            status r ≠ status c0 → status r ≠ effective_status c0 status_ →
            rows' !! j = Some r) as Hsame.
  { intros ? ->. repeat split. exists c. by split. }
  destruct priority_ as [[|p]|].
  - apply Hsame. by rewrite (handle_NaN_priority rows (id c) c).
  - change (Some (Num p)) with (Num <$> Some p).
    rewrite (handle_db rows (id c) c) by (done || by destruct status_).
    pose proof Hfind as [Hc _]%find_client_Some.
    rewrite <- !list_fmap_compose. split; [|split].
    + apply list_fmap_ext. intros; simpl. apply moved_id.
    + apply list_fmap_ext. intros; simpl. apply moved_columns.
    + exists c. split; [done|]. intros j r Hj Hs Hs'.
      rewrite list_lookup_fmap, Hj. simpl. f_equal.
      apply (moved_other rows (id c) c); [done..| |done|done].
      by eapply list_elem_of_lookup_2.
  - destruct status_ as [s|].
    + change (@None number) with (Num <$> @None Z).
      rewrite (handle_db rows (id c) c) by done.
      pose proof Hfind as [Hc _]%find_client_Some.
      rewrite <- !list_fmap_compose. split; [|split].
      * apply list_fmap_ext. intros; simpl. apply moved_id.
      * apply list_fmap_ext. intros; simpl. apply moved_columns.
      * exists c. split; [done|]. intros j r Hj Hs Hs'.
        rewrite list_lookup_fmap, Hj. simpl. f_equal.
        apply (moved_other rows (id c) c); [done..| |done|done].
        by eapply list_elem_of_lookup_2.
    + apply Hsame. by rewrite (handle_noop rows (id c) c).
Qed.

Lemma put_frame_witness :
  id <$> db (handle board (Num 1) (Some "complete") (Some (Num 1))).2
  = id <$> board.
Proof.
  apply (put_frame board (Num 1) (Some "complete") (Some (Num 1))).
  - apply board_unique_ids.
  - reflexivity.
Defined.

(** C3: the PUT handler does not check the status it is given.  On the
    board, the status "archived", which the listing handler refuses, is
    stored on client 1: the handler runs three updates and answers 200. *)
Theorem unknown_status_is_stored :
  "archived" ∉ statuses
  ∧ (code <$> sent (get_clients (Some "archived") (request_on board)).2) = [400]
  ∧ handle board (Num 1) (Some "archived") None
    = (Normal tt,
       let rows' := [set_status_priority "archived" 1 client_A;
                     set_priority 1 client_B; set_priority 2 client_C;
                     client_D] in
       {| db := rows';
          sent := [Response 200 (Rows rows')];
          ran := [UpdatePriority 1 (Num 2); UpdatePriority 2 (Num 3);
                  UpdateStatusPriority "archived" 1 (Num 1)] |}).
Proof.
  split; [|split; reflexivity].
  unfold statuses. rewrite !elem_of_cons, elem_of_nil.
  intros [?|[?|[?|[]]]]; discriminate.
Qed.

(** C4 as stated fails: priority 0 is not a positive integer, and the
    request is not refused. *)
Lemma zero_priority_not_rejected :
  ¬ (∀ rows t c status_ p,
       find_client (Num t) rows = Some c →
       ¬ positive_integer p →
       rejected invalid_priority rows (handle rows (Num t) status_ (Some p))).
Proof.
  intros Hall.
  destruct (Hall board 1 client_A None (Num 0) eq_refl) as (Hsent & _).
  - simpl. lia.
  - discriminate Hsent.
Qed.

(** C4, amended: a priority that is [NaN] is refused with
    "Invalid priority provided.", no statement runs and the table is
    left as it was; an integer priority that is zero or negative is not
    refused: the request is processed as the one with priority 1. *)
Theorem nan_priority_rejected rows t c status_ :
  find_client (Num t) rows = Some c →
  rejected invalid_priority rows (handle rows (Num t) status_ (Some NaN))
  ∧ ∀ z, z ≤ 0 →
      handle rows (Num t) status_ (Some (Num z))
      = handle rows (Num t) status_ (Some (Num 1)).
Proof.
  intros Hfind. split.
  - by rewrite (handle_NaN_priority rows t c).
  - intros z Hz.
    change (Some (Num z)) with (Num <$> Some z).
    change (Some (Num 1)) with (Num <$> Some 1).
    rewrite !(handle_found rows t c) by by destruct status_.
    simpl. by rewrite !Z.max_l by lia.
Qed.

Lemma nan_priority_rejected_witness :
  rejected invalid_priority board (handle board (Num 1) None (Some NaN))
  ∧ ∀ z, z ≤ 0 →
      handle board (Num 1) None (Some (Num z))
      = handle board (Num 1) None (Some (Num 1)).
Proof.
  apply (nan_priority_rejected board 1 client_A None). reflexivity.
Defined.

(** C5: the handler does not refuse every id that is not a number.
    [parseInt] reads the digits a path segment starts with, so on the
    board the segment "2abc" is taken for client 2: [validateId]
    accepts it, B is moved to priority 1, A and C are written 2 and 3,
    and the answer is 200 with the table. *)
Theorem non_numeric_id_is_accepted :
  parseInt "2abc" = Num 2
  ∧ handle_path board "2abc" None (Some (Num 1))
    = (Normal tt,
       let rows' := [set_priority 2 client_A; set_priority 1 client_B;
                     client_C; client_D] in
       {| db := rows';
          sent := [Response 200 (Rows rows')];
          ran := [UpdatePriority 2 (Num 1); UpdatePriority 3 (Num 3);
                  UpdateStatusPriority "backlog" 1 (Num 2)] |}).
Proof. split; reflexivity. Qed.

(** After the 400 the handler does not return: it stops on the
    exception that reading [client.status] of no client, or answering a
    second time, throws. *)
Lemma unknown_id_throws rows i status_ priority_ :
  find_client i rows = None →
  ∃ e, (handle rows i status_ priority_).1 = Throw e.
Proof. intros Hfind. rewrite handle_unknown by done. by eexists. Qed.

(** * Further properties of the handlers *)

(** ** How a request ends *)

Lemma find_client_known i rows :
  is_Some (find_client i rows) ↔ known_id i rows.
Proof.
  unfold find_client, known_id. split.
  - intros [c [Hin Hb]%find_some]. exists c. split.
    + by apply list_elem_of_In.
    + by apply bool_decide_eq_true_1 in Hb.
  - intros (c & Hin & Hc).
    destruct (find _ rows) as [c'|] eqn:Hfind; [by eexists|].
    apply list_elem_of_In in Hin.
    pose proof (find_none _ _ Hfind c Hin) as Hb. simpl in Hb.
    by apply bool_decide_eq_false_1 in Hb.
Qed.

Lemma find_client_id i rows c : find_client i rows = Some c → i = Num (id c).
Proof.
  unfold find_client. intros [_ Hb]%find_some.
  by apply bool_decide_eq_true_1 in Hb.
Qed.

Lemma handle_run_of rows i status_ priority_ :
  run_of rows i status_ priority_ (handle rows i status_ priority_).
Proof.
  destruct (find_client i rows) as [c|] eqn:Hfind.
  - pose proof (find_client_id _ _ _ Hfind) as ->.
    destruct priority_ as [[|p]|].
    + rewrite (handle_NaN_priority rows (id c) c) by done.
      by eapply run_NaN.
    + change (Some (Num p)) with (Num <$> Some p).
      rewrite (handle_found rows (id c) c) by (done || by destruct status_).
      eapply (run_moved _ _ _ _ c (Some p)); try done. by destruct status_.
    + destruct status_ as [s|].
      * change (@None number) with (Num <$> @None Z).
        rewrite (handle_found rows (id c) c) by done.
        by eapply (run_moved _ _ _ _ c None).
      * rewrite (handle_noop rows (id c) c) by done. by eapply run_noop.
  - rewrite handle_unknown by done. by apply run_unknown.
Qed.

(** X1: the PUT handler ends without an exception exactly when the id
    is the id of a row of the table, whatever the body holds. *)
Theorem put_completes_iff_known rows i status_ priority_ :
  (handle rows i status_ priority_).1 = Normal tt ↔ known_id i rows.
Proof.
  rewrite <- find_client_known.
  destruct (handle_run_of rows i status_ priority_) as [e Hf|c Hf|c Hf|c p sts Hf];
    simpl; rewrite Hf; split; try done; try by eexists.
Qed.

(** X2: the PUT handler answers exactly once: 200 when the id is the
    id of a row and the priority of the body is not [NaN], 400 in every
    other case. *)
Theorem put_answers_once rows i status_ priority_ :
  ∃ k, code <$> sent (handle rows i status_ priority_).2 = [k]
     ∧ (k = 200 ∨ k = 400)
     ∧ (k = 200 ↔ known_id i rows ∧ priority_ ≠ Some NaN).
Proof.
  destruct (handle_run_of rows i status_ priority_) as [e Hf|c Hf|c Hf|c p sts Hf];
    simpl.
  - exists 400. split_and!; [done|by right|]. split; [done|].
    intros [Hk%find_client_known _]. rewrite Hf in Hk. by destruct Hk.
  - exists 400. split_and!; [done|by right|]. split; [done|]. by intros [_ ?].
  - exists 200. split_and!; [done|by left|]. split; [|done]. intros _.
    split; [|congruence]. apply find_client_known. by rewrite Hf.
  - exists 200. split_and!; [done|by left|]. split; [|done]. intros _. split.
    + apply find_client_known. by rewrite Hf.
    + subst. by destruct p.
Qed.

(** X3: on a table whose ids and priorities are safe integers, an
    answer 200 of the PUT handler carries the table as it is stored
    when the handler ends; an answer 400 comes with the table as it
    was and with no statement run. *)
Theorem put_answer_matches_table rows i status_ priority_ :
  safe_rows rows →
  match sent (handle rows i status_ priority_).2 with
  | [Response k b] =>
      (k = 200 ∧ b = Rows (db (handle rows i status_ priority_).2))
      ∨ (k = 400 ∧ db (handle rows i status_ priority_).2 = rows
         ∧ ran (handle rows i status_ priority_).2 = [])
  | _ => False
  end.
Proof.
  intros _.
  destruct (handle_run_of rows i status_ priority_) as [e Hf|c Hf|c Hf|c p sts Hf];
    simpl; auto.
Qed.

Lemma put_answer_matches_table_witness :
  match sent (handle board (Num 9) (Some "complete") None).2 with
  | [Response k b] =>
      (k = 200
       ∧ b = Rows (db (handle board (Num 9) (Some "complete") None).2))
      ∨ (k = 400
         ∧ db (handle board (Num 9) (Some "complete") None).2 = board
         ∧ ran (handle board (Num 9) (Some "complete") None).2 = [])
  | _ => False
  end.
Proof.
  apply (put_answer_matches_table board (Num 9) (Some "complete") None).
  apply board_safe_rows.
Defined.

(** X4: a request whose body holds neither status nor priority runs no
    statement and leaves the table as it was, for every id. *)
Theorem put_empty_body_is_noop rows i :
  db (handle rows i None None).2 = rows
  ∧ ran (handle rows i None None).2 = [].
Proof.
  destruct (handle_run_of rows i None None) as [e Hf|c Hf|c Hf|c p sts Hf Hp Hprov];
    simpl; try done.
  by destruct p.
Qed.

(** ** What a request writes *)

Lemma statement_id_writes rank cs : ∀ idx,
  statement_id <$> writes_from rank idx cs = Num ∘ id <$> cs.
Proof.
  induction cs as [|c cs IH]; intros idx; simpl; [done|]. by rewrite IH.
Qed.

Lemma statement_id_assignments t c newStatus newPriority rows :
  id c = t →
  statement_id <$> assignments (Num t) c newStatus newPriority rows
  = Num ∘ id <$>
      ((if bool_decide (newStatus ≠ status c)
        then sort by_priority (old_swimlane (Num t) (status c) rows) else [])
       ++ sort by_priority (target_swimlane (Num t) newStatus rows) ++ [c]).
Proof.
  intros Ht. unfold assignments, insertion, compaction.
  rewrite !fmap_app, !statement_id_writes. simpl. rewrite Ht.
  by case_bool_decide; [rewrite statement_id_writes|].
Qed.

(** X5: a request that runs its updates writes every row at most once,
    and writes only the client and rows of the swimlane it leaves or
    the swimlane it joins. *)
Theorem put_writes_each_row_once rows t c status_ (priority_ : option Z) :
  unique_ids rows →
  find_client (Num t) rows = Some c →
  let sts := ran (handle rows (Num t) status_ (Num <$> priority_)).2 in
  NoDup (statement_id <$> sts)
  ∧ ∀ st, st ∈ sts →
      ∃ r, r ∈ rows ∧ statement_id st = Num (id r)
           ∧ (status r = status c ∨ status r = effective_status c status_).
Proof.
  intros Hu Hfind sts. subst sts.
  pose proof Hfind as [Hc Ht]%find_client_Some.
  destruct (provided status_ priority_) eqn:Hprov; cycle 1.
  { destruct status_, priority_; try done. simpl.
    rewrite (handle_noop rows t c) by done. simpl. split; [constructor|].
    by intros st ?%elem_of_nil. }
  rewrite (handle_found rows t c) by done. simpl.
  set (newStatus := effective_status c status_).
  set (k := effective_priority _ _ _ _).
  assert (∀ r, r ∈ (if bool_decide (newStatus ≠ status c)
                    then sort by_priority (old_swimlane (Num t) (status c) rows)
                    else []) →
            r ∈ rows ∧ status r = status c ∧ id r ≠ t
            ∧ newStatus ≠ status c) as Hold.
  { intros r Hr. case_bool_decide; [|by apply elem_of_nil in Hr].
    apply sort_elem_of, old_elem_of in Hr; [|done..]. tauto. }
  assert (∀ r, r ∈ sort by_priority (target_swimlane (Num t) newStatus rows) →
            r ∈ rows ∧ status r = newStatus ∧ id r ≠ t) as Htgt.
  { intros r Hr. by apply sort_elem_of, target_elem_of in Hr. }
  split.
  - rewrite statement_id_assignments by done.
    apply NoDup_fmap_2_strong.
    + intros x y Hx Hy [= Hxy].
      eapply (unique_ids_inj rows); [done| | |done].
      * rewrite !elem_of_app, list_elem_of_singleton in Hx.
        destruct Hx as [?%Hold|[?%Htgt| ->]]; tauto.
      * rewrite !elem_of_app, list_elem_of_singleton in Hy.
        destruct Hy as [?%Hold|[?%Htgt| ->]]; tauto.
    + apply NoDup_app. split_and!.
      * case_bool_decide; [|constructor].
        rewrite sort_perm. by apply NoDup_filter, unique_ids_NoDup.
      * intros r Hr%Hold.
        rewrite elem_of_app, list_elem_of_singleton.
        intros [?%Htgt| ->]; [|tauto].
        destruct Hr as (_ & ? & _ & ?). destruct H as (_ & ? & _). congruence.
      * apply NoDup_app. split_and!.
        -- rewrite sort_perm. by apply NoDup_filter, unique_ids_NoDup.
        -- intros r Hr%Htgt ->%list_elem_of_singleton. tauto.
        -- apply NoDup_singleton.
  - intros st Hst.
    apply (list_elem_of_fmap_2 statement_id) in Hst.
    rewrite statement_id_assignments in Hst by done.
    apply list_elem_of_fmap in Hst as (r & -> & Hr).
    exists r. simpl.
    rewrite !elem_of_app, list_elem_of_singleton in Hr.
    destruct Hr as [?%Hold|[?%Htgt| ->]]; tauto.
Qed.

Lemma put_writes_each_row_once_witness :
  NoDup (statement_id
           <$> ran (handle board (Num 2) (Some "in-progress") (Some (Num 1))).2).
Proof.
  apply (put_writes_each_row_once board 2 client_B
           (Some "in-progress") (Some 1)).
  - apply board_unique_ids.
  - reflexivity.
Defined.

(** X6: a request changes the status of the client alone: every other
    row keeps the status it had. *)
Theorem put_sets_status_of_client_only rows t c status_
    (priority_ : option Z) :
  unique_ids rows →
  find_client (Num t) rows = Some c →
  status <$> db (handle rows (Num t) status_ (Num <$> priority_)).2
  = (λ r, if decide (id r = t) then effective_status c status_
          else status r) <$> rows.
Proof.
  intros Hu Hfind. pose proof Hfind as [Hc Ht]%find_client_Some.
  destruct (provided status_ priority_) eqn:Hprov.
  - rewrite (handle_db rows t c) by done.
    rewrite <- list_fmap_compose. apply list_fmap_ext. intros; simpl.
    apply moved_status.
  - destruct status_, priority_; try done. simpl.
    rewrite (handle_noop rows t c) by done. simpl.
    apply fmap_ext_in. intros r Hr. case_decide as Hid; [|done].
    by rewrite (row_is_client rows t c Hu Hc Ht r Hr Hid).
Qed.

Lemma put_sets_status_of_client_only_witness :
  status <$> db (handle board (Num 3) (Some "complete") None).2
  = (λ r, if decide (id r = 3) then "complete" else status r) <$> board.
Proof.
  apply (put_sets_status_of_client_only board 3 client_C
           (Some "complete") None).
  - apply board_unique_ids.
  - reflexivity.
Defined.

(** X7: whatever the priorities of the table were, a request that
    gives a priority or changes the status leaves the swimlane the
    client is in with the priorities 1..n, and the swimlane the client
    left, if it left one, with 1..m. *)
Theorem put_renumbers_touched_lanes rows t c status_ (priority_ : option Z) :
  unique_ids rows →
  find_client (Num t) rows = Some c →
  is_Some priority_ ∨ effective_status c status_ ≠ status c →
  let rows' := db (handle rows (Num t) status_ (Num <$> priority_)).2 in
  dense (swimlane (effective_status c status_) rows')
  ∧ (effective_status c status_ ≠ status c →
     dense (swimlane (status c) rows')).
Proof.
  intros Hu Hfind Hreq rows'. subst rows'.
  pose proof Hfind as [Hc Ht]%find_client_Some.
  assert (provided status_ priority_ = true) as Hprov.
  { destruct status_, priority_; try done. destruct Hreq as [[? ?]|?]; done. }
  rewrite (handle_db rows t c) by done. split.
  - apply target_lane_dense; [done..|]. unfold effective_priority.
    destruct priority_ as [p|]; [lia|].
    destruct Hreq as [[? ?]|Hch]; [done|].
    rewrite bool_decide_eq_true_2 by done. lia.
  - intros Hch. by apply old_lane_dense.
Qed.

Lemma put_renumbers_touched_lanes_witness :
  dense (swimlane "backlog"
           (db (handle [set_priority 7 client_A; set_priority 7 client_B;
                        set_priority 9 client_C]
                  (Num 1) None (Some (Num 2))).2)).
Proof.
  refine (proj1 (put_renumbers_touched_lanes
           [set_priority 7 client_A; set_priority 7 client_B;
            set_priority 9 client_C] 1 (set_priority 7 client_A)
           None (Some 2) _ _ _)).
  - unfold unique_ids. apply (bool_decide_unpack _). by vm_compute.
  - reflexivity.
  - left. by exists 2.
Defined.

(** ** Sizes and edges *)

Lemma target_lane_other rows t c s :
  unique_ids rows → c ∈ rows → id c = t → s ≠ status c →
  target_swimlane (Num t) s rows = swimlane s rows.
Proof.
  intros Hu Hc Ht Hs. unfold target_swimlane, swimlane.
  apply filter_ext_in. intros r Hr. split; [by intros [? _]|].
  intros Hrs. split; [done|]. intros [= Hid].
  rewrite (row_is_client rows t c Hu Hc Ht r Hr Hid) in Hrs. done.
Qed.

(** X8: a request moves one row from the swimlane of the client to the
    swimlane it names and no other row between swimlanes: after it the
    target swimlane has one member more and the swimlane left one
    member less (none more, none less, when the status is not
    changed), every other swimlane as many as before. *)
Theorem put_lane_sizes rows t c status_ (priority_ : option Z) s :
  unique_ids rows →
  find_client (Num t) rows = Some c →
  let rows' := db (handle rows (Num t) status_ (Num <$> priority_)).2 in
  Z.of_nat (length (swimlane s rows'))
  = Z.of_nat (length (swimlane s rows))
    + (if decide (s = effective_status c status_) then 1 else 0)
    - (if decide (s = status c) then 1 else 0).
Proof.
  intros Hu Hfind rows'. subst rows'.
  pose proof Hfind as [Hc Ht]%find_client_Some.
  destruct (provided status_ priority_) eqn:Hprov; cycle 1.
  { destruct status_, priority_; try done. simpl.
    rewrite (handle_noop rows t c) by done. simpl.
    repeat case_decide; lia. }
  rewrite (handle_db rows t c) by done.
  set (newStatus := effective_status c status_).
  set (k := effective_priority _ _ _ _).
  pose proof (Permutation_length (client_lane_before rows t c Hu Hc Ht))
    as Hbefore. simpl in Hbefore.
  destruct (decide (s = newStatus)) as [->|Hs].
  - unfold swimlane at 1. rewrite filter_fmap, length_fmap.
    rewrite (Permutation_length
               (target_lane_after rows t c newStatus k Hu Hc Ht)). simpl.
    destruct (decide (newStatus = status c)) as [Heq|Hne].
    + rewrite Heq in *. lia.
    + rewrite (target_lane_other rows t c) by done. lia.
  - destruct (decide (s = status c)) as [->|Hs'].
    + unfold swimlane at 1. rewrite filter_fmap, length_fmap.
      rewrite (old_lane_after rows t c newStatus k) by done.
      unfold old_swimlane. unfold target_swimlane in Hbefore. lia.
    + rewrite (other_lane_after rows t c newStatus k) by done. lia.
Qed.

Lemma put_lane_sizes_witness :
  Z.of_nat (length (swimlane "in-progress"
              (db (handle board (Num 1) (Some "in-progress") None).2)))
  = Z.of_nat (length (swimlane "in-progress" board)) + 1 - 0.
Proof.
  apply (put_lane_sizes board 1 client_A (Some "in-progress") None
           "in-progress").
  - apply board_unique_ids.
  - reflexivity.
Defined.

Lemma priority_in_moved rows t c newStatus k r :
  unique_ids rows → r ∈ rows →
  priority_in (moved t c newStatus k rows <$> rows) r
  = Some (priority (moved t c newStatus k rows r)).
Proof.
  intros Hu Hr. unfold priority_in.
  rewrite find_client_fmap by (intros r'; by apply moved_id).
  by rewrite find_client_elem.
Qed.

(** X9: a client that joins a swimlane with no other member is stored
    with priority 1, whatever priority the request gives or omits. *)
Theorem put_into_empty_lane rows t c status_ (priority_ : option Z) :
  unique_ids rows →
  find_client (Num t) rows = Some c →
  is_Some priority_ ∨ effective_status c status_ ≠ status c →
  target_swimlane (Num t) (effective_status c status_) rows = [] →
  priority_in (db (handle rows (Num t) status_ (Num <$> priority_)).2) c
  = Some 1.
Proof.
  intros Hu Hfind Hreq Hempty.
  pose proof Hfind as [Hc Ht]%find_client_Some.
  assert (provided status_ priority_ = true) as Hprov.
  { destruct status_, priority_; try done. destruct Hreq as [[? ?]|?]; done. }
  rewrite (handle_db rows t c) by done.
  rewrite priority_in_moved by done. rewrite moved_client by done.
  rewrite Hempty. simpl. f_equal. unfold effective_priority.
  destruct priority_ as [p|]; [simpl; lia|].
  destruct Hreq as [[? ?]|Hch]; [done|].
  by rewrite bool_decide_eq_true_2.
Qed.

Lemma put_into_empty_lane_witness :
  priority_in (db (handle board (Num 2) (Some "complete") (Some (Num 5))).2)
    client_B
  = Some 1.
Proof.
  apply (put_into_empty_lane board 2 client_B (Some "complete") (Some 5)).
  - apply board_unique_ids.
  - reflexivity.
  - left. by exists 5.
  - reflexivity.
Defined.

(** ** Requests that come to the same *)

(** X10: leaving the status out is the same request as naming the
    status the client has. *)
Theorem put_absent_status_is_current rows t c priority_ :
  find_client (Num t) rows = Some c →
  is_Some priority_ →
  handle rows (Num t) None priority_
  = handle rows (Num t) (Some (status c)) priority_.
Proof.
  intros Hfind [[|p] ->].
  - by rewrite !(handle_NaN_priority rows t c).
  - change (Some (Num p)) with (Num <$> Some p).
    by rewrite !(handle_found rows t c).
Qed.

Lemma put_absent_status_is_current_witness :
  handle board (Num 3) None (Some (Num 1))
  = handle board (Num 3) (Some "backlog") (Some (Num 1)).
Proof.
  apply (put_absent_status_is_current board 3 client_C).
  - reflexivity.
  - by eexists.
Defined.

(** X11: on a change of status, a priority at or past the end of the
    target swimlane is the same request as no priority at all. *)
Theorem put_past_end_is_append rows t c s p :
  find_client (Num t) rows = Some c →
  s ≠ status c →
  Z.of_nat (length (target_swimlane (Num t) s rows)) + 1 ≤ p →
  handle rows (Num t) (Some s) (Some (Num p))
  = handle rows (Num t) (Some s) None.
Proof.
  intros Hfind Hs Hp.
  change (Some (Num p)) with (Num <$> Some p).
  change (@None number) with (Num <$> @None Z).
  rewrite !(handle_found rows t c) by done. simpl.
  unfold effective_priority. rewrite bool_decide_eq_true_2 by done.
  by rewrite Z.min_r, Z.max_r by lia.
Qed.

Lemma put_past_end_is_append_witness :
  handle board (Num 1) (Some "in-progress") (Some (Num 99))
  = handle board (Num 1) (Some "in-progress") None.
Proof.
  apply (put_past_end_is_append board 1 client_A "in-progress" 99).
  - reflexivity.
  - discriminate.
  - simpl. lia.
Defined.

(** ** Order and closed form *)

Lemma sorted_lookup_le (l : list Z) : ∀ j1 j2 a b,
  Sorted Z.le l → l !! j1 = Some a → l !! j2 = Some b →
  (j1 ≤ j2)%nat → a ≤ b.
Proof.
  intros j1 j2 a b Hs%Sorted_StronglySorted; [|apply _].
  revert j1 j2. induction Hs as [|x l Hs IH Hall]; intros j1 j2; [done|].
  destruct j1 as [|j1], j2 as [|j2]; simpl; intros H1 H2 Hle.
  - simplify_eq. lia.
  - simplify_eq. rewrite Forall_forall in Hall. apply Hall.
    by eapply list_elem_of_lookup_2.
  - lia.
  - eapply IH; [done..|lia].
Qed.

Lemma shifted_rank_mono k j1 j2 :
  (j1 < j2)%nat → shifted_rank k j1 < shifted_rank k j2.
Proof. intros Hj. unfold shifted_rank. simpl. repeat case_decide; lia. Qed.

(** The members of a swimlane, sorted, keep the order of their
    priorities in the order of their indices. *)
Lemma sorted_index_lt cs j1 j2 r1 r2 :
  sort by_priority cs !! j1 = Some r1 →
  sort by_priority cs !! j2 = Some r2 →
  priority r1 < priority r2 → (j1 < j2)%nat.
Proof.
  intros H1 H2 Hlt. destruct (decide (j1 < j2)%nat) as [|Hge]; [done|].
  assert (priority r2 ≤ priority r1); [|lia].
  apply (sorted_lookup_le (priority <$> sort by_priority cs) j2 j1).
  - apply sort_sorted.
  - by rewrite list_lookup_fmap, H2.
  - by rewrite list_lookup_fmap, H1.
  - lia.
Qed.

Lemma renumber_keeps_order (rank : nat → Z) cs r1 r2 :
  (∀ j1 j2, (j1 < j2)%nat → rank j1 < rank j2) →
  unique_ids cs → r1 ∈ cs → r2 ∈ cs →
  priority r1 < priority r2 →
  priority (renumber rank (sort by_priority cs) r1)
  < priority (renumber rank (sort by_priority cs) r2).
Proof.
  intros Hmono Hu H1 H2 Hlt.
  assert (unique_ids (sort by_priority cs)) as Hus
    by (eapply unique_ids_perm; [symmetry; apply sort_perm|done]).
  apply (sort_elem_of by_priority), list_elem_of_lookup_1 in H1 as [j1 Hj1].
  apply (sort_elem_of by_priority), list_elem_of_lookup_1 in H2 as [j2 Hj2].
  rewrite (renumber_lookup rank _ j1 r1), (renumber_lookup rank _ j2 r2)
    by done.
  simpl. apply Hmono. by eapply sorted_index_lt.
Qed.

(** X12: on a table whose ids and priorities are safe integers, a
    request keeps the order of the others: two rows of one swimlane,
    neither of them the client, of which the first had the smaller
    priority, have it after the request too. *)
Theorem put_keeps_order rows t c status_ (priority_ : option Z) r1 r2 :
  safe_rows rows →
  unique_ids rows →
  find_client (Num t) rows = Some c →
  r1 ∈ rows → r2 ∈ rows → id r1 ≠ t → id r2 ≠ t →
  status r1 = status r2 →
  priority r1 < priority r2 →
  let rows' := db (handle rows (Num t) status_ (Num <$> priority_)).2 in
  ∃ p1 p2, priority_in rows' r1 = Some p1 ∧ priority_in rows' r2 = Some p2
           ∧ p1 < p2.
Proof.
  intros _ Hu Hfind Hr1 Hr2 Hid1 Hid2 Hst Hlt rows'. subst rows'.
  pose proof Hfind as [Hc Ht]%find_client_Some.
  destruct (provided status_ priority_) eqn:Hprov; cycle 1.
  { destruct status_, priority_; try done. simpl.
    rewrite (handle_noop rows t c) by done. simpl.
    exists (priority r1), (priority r2). unfold priority_in.
    by rewrite !find_client_elem. }
  rewrite (handle_db rows t c) by done.
  rewrite !priority_in_moved by done. do 2 eexists. split_and!; [done..|].
  set (newStatus := effective_status c status_).
  set (k := effective_priority _ _ _ _).
  destruct (decide (status r1 = newStatus)) as [Hs|Hs].
  - assert (r1 ∈ target_swimlane (Num t) newStatus rows) as H1
      by by apply target_elem_of.
    assert (r2 ∈ target_swimlane (Num t) newStatus rows) as H2
      by (apply target_elem_of; [done..|]; split_and!; [done|congruence|done]).
    rewrite !(moved_target rows t c) by done.
    apply renumber_keeps_order; [apply shifted_rank_mono| |done..].
    by apply unique_ids_filter.
  - destruct (decide (status r1 = status c)) as [Hs'|Hs'].
    + assert (r1 ∈ old_swimlane (Num t) (status c) rows) as H1
        by by apply old_elem_of.
      assert (r2 ∈ old_swimlane (Num t) (status c) rows) as H2
        by (apply old_elem_of; [done..|]; split_and!; [done|congruence|done]).
      rewrite !(moved_old rows t c) by (done || congruence).
      apply (renumber_keeps_order (λ idx, Z.of_nat idx + 1));
        [intros; lia| |done..].
      by apply unique_ids_filter.
    + rewrite !(moved_other rows t c) by (done || congruence). done.
Qed.

Lemma put_keeps_order_witness :
  ∃ p1 p2,
    priority_in (db (handle board (Num 1) None (Some (Num 3))).2) client_B
    = Some p1
    ∧ priority_in (db (handle board (Num 1) None (Some (Num 3))).2) client_C
      = Some p2
    ∧ p1 < p2.
Proof.
  apply (put_keeps_order board 1 client_A None (Some 3) client_B client_C).
  - apply board_safe_rows.
  - apply board_unique_ids.
  - reflexivity.
  - unfold board. rewrite !elem_of_cons. tauto.
  - unfold board. rewrite !elem_of_cons. tauto.
  - discriminate.
  - discriminate.
  - reflexivity.
  - simpl. lia.
Defined.

Lemma dense_index cs j r :
  dense cs → sort by_priority cs !! j = Some r →
  Z.of_nat j + 1 = priority r.
Proof.
  intros Hd Hj.
  assert ((priority <$> sort by_priority cs) !! j = Some (priority r)) as Hp
    by by rewrite list_lookup_fmap, Hj.
  rewrite sorted_dense_priorities in Hp by done.
  apply lookup_seqZ in Hp as [-> _]. lia.
Qed.

Lemma gap_index rows c j r :
  unique_ids rows → c ∈ rows → dense (swimlane (status c) rows) →
  sort by_priority (target_swimlane (Num (id c)) (status c) rows) !! j
  = Some r →
  Z.of_nat j + 1 = without_client c r ∧ priority r ≠ priority c.
Proof.
  intros Hu Hc Hd Hj.
  assert ((priority <$> sort by_priority
             (target_swimlane (Num (id c)) (status c) rows)) !! j
          = Some (priority r)) as Hp
    by by rewrite list_lookup_fmap, Hj.
  rewrite sorted_gap_priorities, list_lookup_fmap in Hp by done.
  destruct (seq 0 _ !! j) as [j'|] eqn:Hseq; [|done].
  apply lookup_seq in Hseq as [-> _]. simpl in Hp. injection Hp as Hp.
  unfold shifted_rank in Hp. simpl in Hp. unfold without_client.
  repeat case_decide; lia.
Qed.

(** Under the invariant the rows after a request follow from the
    priorities they had. *)
Lemma moved_closed rows c newStatus k r :
  unique_ids rows → c ∈ rows →
  dense (swimlane (status c) rows) →
  dense (swimlane newStatus rows) →
  r ∈ rows →
  moved (id c) c newStatus k rows r = closed_move c newStatus k r.
Proof.
  intros Hu Hc Hdc Hdn Hr. unfold moved, closed_move.
  destruct (decide (id r = id c)) as [Hid|Hid]; [done|].
  destruct (decide (status r = newStatus)) as [Hs|Hs].
  - assert (r ∈ sort by_priority (target_swimlane (Num (id c)) newStatus rows))
      as [j Hj]%list_elem_of_lookup_1
      by by apply sort_elem_of, (target_elem_of rows (id c)).
    rewrite (renumber_lookup _ _ j r) by (done || by apply unique_ids_sorted_lane).
    f_equal. unfold shifted_rank, with_slot.
    destruct (decide (newStatus = status c)) as [Heq|Hne].
    + rewrite Heq in Hj. by destruct (gap_index rows c j r) as [<- _].
    + rewrite (target_lane_other rows (id c) c) in Hj by done.
      by rewrite <- (dense_index _ j r Hdn Hj).
  - destruct (decide (status r = status c)) as [Hs'|Hs']; [|done].
    assert (r ∈ sort by_priority (old_swimlane (Num (id c)) (status c) rows))
      as [j Hj]%list_elem_of_lookup_1
      by by apply sort_elem_of, (old_elem_of rows (id c)).
    rewrite (renumber_lookup (λ idx, Z.of_nat idx + 1) _ j r)
      by (done || by apply unique_ids_sorted_lane).
    f_equal. by destruct (gap_index rows c j r) as [<- _].
Qed.

(** X13: on a table that satisfies the invariant, the table after a
    request with a status or a priority follows row by row from the
    priorities before it: the client takes its place, the members it
    leaves behind close the gap, the members it joins open a slot. *)
Theorem put_closed_form rows t c status_ (priority_ : option Z) :
  unique_ids rows →
  invariant rows →
  find_client (Num t) rows = Some c →
  provided status_ priority_ = true →
  let newStatus := effective_status c status_ in
  let k := effective_priority c newStatus
             (length (target_swimlane (Num t) newStatus rows)) priority_ in
  db (handle rows (Num t) status_ (Num <$> priority_)).2
  = closed_move c newStatus k <$> rows.
Proof.
  intros Hu Hinv Hfind Hprov newStatus k. subst newStatus k.
  rewrite (handle_db rows t c) by done.
  apply find_client_Some in Hfind as [Hc <-].
  apply fmap_ext_in. intros r Hr. by apply moved_closed.
Qed.

Lemma put_closed_form_witness :
  db (handle board (Num 3) (Some "in-progress") (Some (Num 1))).2
  = closed_move client_C "in-progress" 1 <$> board.
Proof.
  apply (put_closed_form board 3 client_C (Some "in-progress") (Some 1)).
  - apply board_unique_ids.
  - apply board_invariant.
  - reflexivity.
  - reflexivity.
Defined.

(** X14: a move inside a swimlane that satisfies the invariant shifts
    by one exactly the members between the place the client leaves and
    the place it takes, towards the place it leaves; every other member
    keeps its priority. *)
Theorem put_same_lane_shift rows t c status_ p r :
  unique_ids rows →
  dense (swimlane (status c) rows) →
  find_client (Num t) rows = Some c →
  effective_status c status_ = status c →
  r ∈ rows → status r = status c → id r ≠ t →
  let k := Z.max 1 (Z.min p
             (Z.of_nat (length (target_swimlane (Num t) (status c) rows)) + 1))
  in
  priority_in (db (handle rows (Num t) status_ (Some (Num p))).2) r
  = Some (if decide (priority c < priority r ≤ k) then priority r - 1
          else if decide (k ≤ priority r < priority c) then priority r + 1
          else priority r).
Proof.
  intros Hu Hd Hfind Hst Hr Hs Hid k. subst k.
  change (Some (Num p)) with (Num <$> Some p).
  rewrite (handle_db rows t c) by (done || by destruct status_).
  apply find_client_Some in Hfind as [Hc <-].
  rewrite priority_in_moved by done. rewrite Hst. f_equal.
  rewrite moved_closed by done.
  assert (priority r ≠ priority c) as Hne.
  { assert (r ∈ sort by_priority
                  (target_swimlane (Num (id c)) (status c) rows))
      as [j Hj]%list_elem_of_lookup_1
      by by apply sort_elem_of, (target_elem_of rows (id c)).
    by destruct (gap_index rows c j r). }
  unfold closed_move, effective_priority.
  rewrite decide_False, !decide_True by done. simpl.
  unfold with_slot, without_client. repeat case_decide; lia.
Qed.

Lemma put_same_lane_shift_witness :
  priority_in (db (handle board (Num 3) None (Some (Num 1))).2) client_A
  = Some (if decide (3 < 1 ≤ Z.max 1 (Z.min 1 (Z.of_nat 2 + 1))) then 1 - 1
          else if decide (Z.max 1 (Z.min 1 (Z.of_nat 2 + 1)) ≤ 1 < 3)
               then 1 + 1
          else 1).
Proof.
  apply (put_same_lane_shift board 3 client_C None 1 client_A).
  - apply board_unique_ids.
  - apply board_invariant.
  - reflexivity.
  - reflexivity.
  - unfold board. rewrite !elem_of_cons. tauto.
  - reflexivity.
  - discriminate.
Defined.

(** ** Requests in sequence *)

Lemma unique_ids_moved rows t c newStatus k :
  unique_ids rows → unique_ids (moved t c newStatus k rows <$> rows).
Proof.
  unfold unique_ids. intros Hu. rewrite <- list_fmap_compose.
  rewrite (list_fmap_ext (id ∘ moved t c newStatus k rows) id rows); [done|].
  intros; simpl. apply moved_id.
Qed.

Lemma find_client_moved rows t c newStatus k :
  find_client (Num t) rows = Some c →
  find_client (Num t) (moved t c newStatus k rows <$> rows)
  = Some (set_status_priority newStatus k c).
Proof.
  intros Hfind. pose proof Hfind as [Hc Ht]%find_client_Some.
  rewrite find_client_fmap by (intros r'; by apply moved_id).
  rewrite Hfind. simpl. by rewrite moved_client.
Qed.

(** Asking for the place the client has changes nothing, as soon as
    the swimlane of the client carries 1..n. *)
Lemma fixed_request rows t c :
  unique_ids rows →
  dense (swimlane (status c) rows) →
  find_client (Num t) rows = Some c →
  db (handle rows (Num t) (Some (status c)) (Some (Num (priority c)))).2
  = rows.
Proof.
  intros Hu Hd Hfind.
  change (Some (Num (priority c))) with (Num <$> Some (priority c)).
  rewrite (handle_db rows t c (Some (status c)) (Some (priority c))) by done.
  apply find_client_Some in Hfind as [Hc Ht]. subst t. simpl.
  pose proof (client_priority_bounds rows (id c) c Hu Hc eq_refl Hd) as Hk.
  rewrite Z.min_l, Z.max_r by lia. by apply moved_fixpoint.
Qed.

(** X15: after any request on a table whose client swimlane carries
    1..n, asking again for the status and the priority the client now
    has changes nothing. *)
Theorem put_reissue_is_noop rows t c status_ (priority_ : option Z) :
  unique_ids rows →
  dense (swimlane (status c) rows) →
  find_client (Num t) rows = Some c →
  let rows' := db (handle rows (Num t) status_ (Num <$> priority_)).2 in
  ∃ c', find_client (Num t) rows' = Some c'
      ∧ db (handle rows' (Num t) (Some (status c'))
              (Some (Num (priority c')))).2
        = rows'.
Proof.
  intros Hu Hd Hfind rows'. subst rows'.
  destruct (provided status_ priority_) eqn:Hprov; cycle 1.
  { destruct status_, priority_; try done. simpl.
    rewrite (handle_noop rows t c) by done. simpl.
    exists c. split; [done|]. by apply fixed_request. }
  rewrite (handle_db rows t c) by done.
  pose proof Hfind as [Hc Ht]%find_client_Some.
  eexists. split; [by apply find_client_moved|].
  apply fixed_request.
  - by apply unique_ids_moved.
  - simpl. apply target_lane_dense; [done..|].
    by apply effective_priority_bounds.
  - by apply find_client_moved.
Qed.

Lemma put_reissue_is_noop_witness :
  ∃ c', find_client (Num 1)
          (db (handle board (Num 1) (Some "in-progress") (Some (Num 1))).2)
        = Some c'
      ∧ db (handle
              (db (handle board (Num 1) (Some "in-progress") (Some (Num 1))).2)
              (Num 1) (Some (status c')) (Some (Num (priority c')))).2
        = db (handle board (Num 1) (Some "in-progress") (Some (Num 1))).2.
Proof.
  apply (put_reissue_is_noop board 1 client_A (Some "in-progress") (Some 1)).
  - apply board_unique_ids.
  - apply board_invariant.
  - reflexivity.
Defined.

Lemma closed_move_back c s k r :
  s ≠ status c →
  (id r = id c → r = c) →
  (id r ≠ id c → status r = status c → priority r ≠ priority c) →
  closed_move (set_status_priority s k c) (status c) (priority c)
    (closed_move c s k r)
  = r.
Proof.
  intros Hs Hsame Hne. unfold closed_move at 2.
  destruct (decide (id r = id c)) as [Hid|Hid].
  { rewrite (Hsame Hid). unfold closed_move. simpl.
    rewrite decide_True by done. by destruct c. }
  specialize (Hne Hid).
  destruct (decide (status r = s)) as [Hrs|Hrs].
  - rewrite decide_False by done. unfold closed_move. simpl.
    rewrite decide_False by done. rewrite decide_False by congruence.
    rewrite decide_True by done.
    unfold without_client, with_slot. destruct r as [ri rs rp rc].
    unfold set_priority. cbn in *. f_equal. repeat case_decide; lia.
  - destruct (decide (status r = status c)) as [Hrc|Hrc].
    + unfold closed_move. simpl.
      rewrite decide_False by done. rewrite decide_True by done.
      rewrite decide_False by (simpl; congruence).
      specialize (Hne Hrc).
      unfold without_client, with_slot. destruct r as [ri rs rp rc].
      unfold set_priority. cbn in *. f_equal. repeat case_decide; lia.
    + unfold closed_move. simpl. by rewrite !decide_False.
Qed.

(** X16: moving a client to another swimlane and then back to the
    status and the priority it had restores the table, when the two
    swimlanes carried 1..n and 1..m. *)
Theorem put_back_restores rows t c s (priority_ : option Z) :
  unique_ids rows →
  dense (swimlane (status c) rows) →
  dense (swimlane s rows) →
  find_client (Num t) rows = Some c →
  s ≠ status c →
  let rows1 := db (handle rows (Num t) (Some s) (Num <$> priority_)).2 in
  db (handle rows1 (Num t) (Some (status c)) (Some (Num (priority c)))).2
  = rows.
Proof.
  intros Hu Hdc Hds Hfind Hs rows1. subst rows1.
  rewrite (handle_db rows t c) by done. simpl.
  set (k := effective_priority c s _ priority_).
  assert (1 ≤ k ≤ Z.of_nat (length (target_swimlane (Num t) s rows)) + 1)
    as Hk.
  { pose proof Hfind as [Hc Ht]%find_client_Some.
    apply (effective_priority_bounds rows t c (Some s)); done. }
  pose proof (find_client_moved rows t c s k Hfind) as Hfind1.
  pose proof (unique_ids_moved rows t c s k Hu) as Hu1.
  pose proof Hfind as [Hc Ht]%find_client_Some. subst t.
  pose proof Hfind1 as [Hc1 _]%find_client_Some.
  assert (dense (swimlane s (moved (id c) c s k rows <$> rows))) as Hds1
    by by apply target_lane_dense.
  assert (dense (swimlane (status c) (moved (id c) c s k rows <$> rows)))
    as Hdc1 by by apply old_lane_dense.
  set (rows1 := moved (id c) c s k rows <$> rows) in *.
  set (c1 := set_status_priority s k c) in *.
  change (Some (Num (priority c))) with (Num <$> Some (priority c)).
  rewrite (handle_db rows1 (id c) c1 (Some (status c)) (Some (priority c)))
    by done.
  simpl.
  assert (length (target_swimlane (Num (id c)) (status c) rows1)
          = length (target_swimlane (Num (id c)) (status c) rows)) as Hlen.
  { unfold rows1, target_swimlane. rewrite filter_fmap, length_fmap.
    f_equal. apply list_filter_iff. intros r.
    rewrite moved_id, moved_status. case_decide as Hid; [|done].
    split; intros [_ []]; by rewrite Hid. }
  pose proof (client_priority_bounds rows (id c) c Hu Hc eq_refl Hdc) as Hk0.
  rewrite Hlen, Z.min_l, Z.max_r by lia.
  transitivity (closed_move c1 (status c) (priority c) <$> rows1).
  { apply fmap_ext_in. intros r1 Hr1.
    by apply (moved_closed rows1 c1 (status c) (priority c) r1). }
  unfold rows1. rewrite <- list_fmap_compose.
  transitivity (Datatypes.id <$> rows); [|apply list_fmap_id].
  apply fmap_ext_in. intros r Hr. simpl.
  rewrite moved_closed by done. apply closed_move_back; [done| |].
  - intros Hid. by apply (row_is_client rows (id c) c).
  - intros Hid Hrs.
    assert (r ∈ sort by_priority
                  (target_swimlane (Num (id c)) (status c) rows))
      as [j Hj]%list_elem_of_lookup_1
      by by apply sort_elem_of, (target_elem_of rows (id c)).
    by destruct (gap_index rows c j r).
Qed.

Lemma put_back_restores_witness :
  db (handle
        (db (handle board (Num 2) (Some "in-progress") (Some (Num 1))).2)
        (Num 2) (Some "backlog") (Some (Num 2))).2
  = board.
Proof.
  apply (put_back_restores board 2 client_B "in-progress" (Some 1)).
  - apply board_unique_ids.
  - apply board_invariant.
  - apply board_invariant.
  - reflexivity.
  - discriminate.
Defined.

(** ** The listing *)

Lemma statuses_elem_of s :
  s ∈ statuses ↔ ¬ (s ≠ "backlog" ∧ s ≠ "in-progress" ∧ s ≠ "complete").
Proof.
  unfold statuses. rewrite !elem_of_cons, elem_of_nil.
  destruct (decide (s = "backlog")), (decide (s = "in-progress")),
    (decide (s = "complete")); tauto.
Qed.

(** X17: the listing handler answers once and writes nothing.  With no
    status, or the empty one, it lists the table; with one of the three
    statuses it lists the rows of that status, in the order of the
    table; with any other status it refuses with 400 and lists nothing. *)
Theorem get_clients_answer rows status_ :
  get_clients status_ (request_on rows)
  = (Normal tt,
     {| db := rows;
        sent :=
          [match status_ with
           | None => Response 200 (Rows rows)
           | Some s =>
               if decide (s = "") then Response 200 (Rows rows)
               else if decide (s ∈ statuses)
                    then Response 200 (Rows (swimlane s rows))
               else Response 400 (Message (Some invalid_status))
           end];
        ran := [] |}).
Proof.
  unfold get_clients. destruct status_ as [s|]; [|done].
  destruct (decide (s = "")) as [->|Hne]; [done|].
  rewrite (bool_decide_eq_true_2 (s ≠ "")) by done.
  destruct (decide (s ∈ statuses)) as [Hin|Hout].
  - rewrite bool_decide_eq_false_2 by by apply statuses_elem_of. done.
  - rewrite bool_decide_eq_true_2; [done|].
    rewrite statuses_elem_of in Hout. by apply dec_stable.
Qed.

Lemma get_clients_status rows s :
  s ∈ statuses →
  get_clients (Some s) (request_on rows)
  = (Normal tt,
     {| db := rows;
        sent := [Response 200 (Rows (swimlane s rows))];
        ran := [] |}).
Proof.
  intros Hs. unfold get_clients.
  rewrite bool_decide_eq_true_2
    by (intros ->; rewrite statuses_elem_of in Hs; by apply Hs).
  rewrite bool_decide_eq_false_2 by by apply statuses_elem_of. done.
Qed.

Lemma moved_invariant rows t c newStatus k :
  unique_ids rows → c ∈ rows → id c = t →
  invariant rows →
  1 ≤ k ≤ Z.of_nat (length (target_swimlane (Num t) newStatus rows)) + 1 →
  invariant (moved t c newStatus k rows <$> rows).
Proof.
  intros Hu Hc Ht Hinv Hk s.
  destruct (decide (s = newStatus)) as [->|Hs];
    [by apply target_lane_dense|].
  destruct (decide (s = status c)) as [->|Hs'].
  - apply old_lane_dense; [done..|]. congruence.
  - rewrite other_lane_after by done. apply Hinv.
Qed.

(** X18: after a request on a table that satisfies the invariant, the
    listing of any of the three statuses shows rows whose priorities
    are exactly 1..n, n the number of rows listed. *)
Theorem get_after_put rows t c status_ (priority_ : option Z) s :
  unique_ids rows →
  invariant rows →
  find_client (Num t) rows = Some c →
  s ∈ statuses →
  let rows' := db (handle rows (Num t) status_ (Num <$> priority_)).2 in
  ∃ listed,
    sent (get_clients (Some s) (request_on rows')).2
    = [Response 200 (Rows listed)]
    ∧ priority <$> listed ≡ₚ seqZ 1 (Z.of_nat (length listed)).
Proof.
  intros Hu Hinv Hfind Hs rows'.
  exists (swimlane s rows'). split.
  - by rewrite get_clients_status.
  - subst rows'. pose proof Hfind as [Hc Ht]%find_client_Some.
    destruct (provided status_ priority_) eqn:Hprov.
    + rewrite (handle_db rows t c) by done.
      apply moved_invariant; [done..|].
      by apply effective_priority_bounds.
    + destruct status_, priority_; try done. simpl.
      rewrite (handle_noop rows t c) by done. apply Hinv.
Qed.

Lemma get_after_put_witness :
  ∃ listed,
    sent (get_clients (Some "backlog")
            (request_on
               (db (handle board (Num 4) (Some "backlog") (Some (Num 2))).2))).2
    = [Response 200 (Rows listed)]
    ∧ priority <$> listed ≡ₚ seqZ 1 (Z.of_nat (length listed)).
Proof.
  apply (get_after_put board 4 client_D (Some "backlog") (Some 2) "backlog").
  - apply board_unique_ids.
  - apply board_invariant.
  - reflexivity.
  - unfold statuses. rewrite !elem_of_cons. tauto.
Defined.

(** ** The validator of the id *)

(** X19: [validateId] accepts exactly the ids of the rows of the table:
    it never throws, leaves the world as it is, answers valid with no
    message for the id of a row, and invalid with the message
    "Invalid id provided." for [NaN] and for any other id. *)
Theorem validateId_accepts_known i w :
  ∃ v, validateId i w = (Normal v, w)
     ∧ (valid v = true ↔ known_id i (db w))
     ∧ messageObj v = (if valid v then None else Some (invalid_id i)).
Proof.
  unfold validateId, invalid_id. destruct i as [|t]; simpl.
  - eexists. split_and!; [done| |done]. split; [done|].
    intros Hk%find_client_known. rewrite find_client_NaN in Hk.
    by destruct Hk.
  - unfold mbind, M_bind, bind, select_one. simpl.
    destruct (find_client (Num t) (db w)) as [c|] eqn:Hfind.
    + eexists. split_and!; [done| |done]. split; [|done]. intros _.
      apply find_client_known. by rewrite Hfind.
    + eexists. split_and!; [done| |done]. split; [done|].
      intros Hk%find_client_known. rewrite Hfind in Hk. by destruct Hk.
Qed.

(** ** Every member is written *)

(** X20: a request with a status or a priority writes every row of the
    swimlane the client joins and of the swimlane it leaves, the rows
    whose priority stays the same included. *)
Theorem put_writes_whole_lanes rows t c status_ (priority_ : option Z) r :
  unique_ids rows →
  find_client (Num t) rows = Some c →
  provided status_ priority_ = true →
  r ∈ rows →
  status r = status c ∨ status r = effective_status c status_ →
  ∃ st, st ∈ ran (handle rows (Num t) status_ (Num <$> priority_)).2
        ∧ statement_id st = Num (id r).
Proof.
  intros Hu Hfind Hprov Hr Hlane.
  pose proof Hfind as [Hc Ht]%find_client_Some.
  rewrite (handle_found rows t c) by done. simpl.
  set (newStatus := effective_status c status_) in *.
  set (k := effective_priority _ _ _ _).
  assert (Num (id r)
          ∈ statement_id <$> assignments (Num t) c newStatus k rows) as Hin.
  { rewrite statement_id_assignments by done.
    apply (list_elem_of_fmap_2 (Num ∘ id)).
    rewrite !elem_of_app, list_elem_of_singleton.
    destruct (decide (id r = t)) as [Hid|Hid].
    { right; right. by apply (row_is_client rows t c). }
    destruct (decide (status r = newStatus)) as [Hs|Hs].
    - right; left. by apply sort_elem_of, target_elem_of.
    - left. destruct Hlane as [Hs'|]; [|done].
      rewrite bool_decide_eq_true_2 by congruence.
      by apply sort_elem_of, old_elem_of. }
  apply list_elem_of_fmap in Hin as (st & Hst & Hin). by exists st.
Qed.

Lemma put_writes_whole_lanes_witness :
  ∃ st, st ∈ ran (handle board (Num 1) None (Some (Num 1))).2
        ∧ statement_id st = Num (id client_C).
Proof.
  apply (put_writes_whole_lanes board 1 client_A None (Some 1) client_C).
  - apply board_unique_ids.
  - reflexivity.
  - reflexivity.
  - unfold board. rewrite !elem_of_cons. tauto.
  - by left.
Defined.
